(** * The tabular data-processing engine: [DataProcessor], [parseCSV], [analyzeFields]

    A shallow embedding of the row-oriented engine of the repository
    (utils/dataProcessor.ts and the ingestion helpers of FileUploadPanel.tsx)
    and the properties its specification states about it.

    Conventions of the embedding.
    - A JavaScript number is an extended rational: [NaN], the two infinities
      and exact finite values.  Rounding, overflow and the negative zero of
      IEEE 754 are not represented.
    - A JavaScript string is a [string] whose characters are code units
      below 256.
    - A row (a JavaScript object used as a record) is a finite map from
      property names to scalar values; a lookup of an absent key gives
      [VUndefined]: a row has no column named like a member of
      Object.prototype.  The enumeration order of keys is not represented.
    - The objects the engine itself fills by computed keys ([groups] of
      [groupBy]) are plain objects: a read of a key they do not own finds
      the member of that name of Object.prototype, when there is one.
    - A method that throws returns [None].
    - The built-ins whose result is left to the engine or the locale
      ([localeCompare], the parsing of date strings, [Math.random], the
      order [Array.prototype.sort] returns for a comparator that is not
      consistent) are parameters. *)

From Stdlib Require Import ZArith QArith Qcanon Ascii String List Lia.
From stdpp Require Import base option list gmap strings sorting pretty.

Local Open Scope string_scope.
Local Open Scope Z_scope.

(** ** JavaScript numbers *)

Module Num.

Inductive num : Type :=
  | NaN
  | PInf
  | NInf
  | Fin (q : Qc).

Definition of_Z (z : Z) : num := Fin (Q2Qc (inject_Z z)).
Definition of_nat (n : nat) : num := of_Z (Z.of_nat n).

Definition zero : num := of_Z 0.

Definition isNaN (a : num) : bool :=
  match a with NaN => true | _ => false end.

Definition neg (a : num) : num :=
  match a with
  | NaN => NaN
  | PInf => NInf
  | NInf => PInf
  | Fin q => Fin (- q)%Qc
  end.

Definition add (a b : num) : num :=
  match a, b with
  | NaN, _ | _, NaN => NaN
  | PInf, NInf | NInf, PInf => NaN
  | PInf, _ | _, PInf => PInf
  | NInf, _ | _, NInf => NInf
  | Fin x, Fin y => Fin (x + y)%Qc
  end.

Definition sub (a b : num) : num := add a (neg b).

(** Sign of a finite value, as a [comparison] with zero. *)
Definition Qc_sign (q : Qc) : comparison := (q ?= Q2Qc 0)%Qc.

Definition div (a b : num) : num :=
  match a, b with
  | NaN, _ | _, NaN => NaN
  | (PInf | NInf), (PInf | NInf) => NaN
  | PInf, Fin y => match Qc_sign y with Lt => NInf | _ => PInf end
  | NInf, Fin y => match Qc_sign y with Lt => PInf | _ => NInf end
  | Fin _, (PInf | NInf) => zero
  | Fin x, Fin y =>
      match Qc_sign y with
      | Eq => match Qc_sign x with Eq => NaN | Lt => NInf | Gt => PInf end
      | _ => Fin (x / y)%Qc
      end
  end.

(** Three-way comparison; [None] when an operand is [NaN]. *)
Definition cmp (a b : num) : option comparison :=
  match a, b with
  | NaN, _ | _, NaN => None
  | PInf, PInf | NInf, NInf => Some Eq
  | PInf, _ | _, NInf => Some Gt
  | NInf, _ | _, PInf => Some Lt
  | Fin x, Fin y => Some (x ?= y)%Qc
  end.

Definition ltb (a b : num) : bool :=
  match cmp a b with Some Lt => true | _ => false end.
Definition gtb (a b : num) : bool :=
  match cmp a b with Some Gt => true | _ => false end.
Definition leb (a b : num) : bool :=
  match cmp a b with Some Lt | Some Eq => true | _ => false end.
Definition geb (a b : num) : bool :=
  match cmp a b with Some Gt | Some Eq => true | _ => false end.
(** [a === b] on numbers. *)
Definition eqb (a b : num) : bool :=
  match cmp a b with Some Eq => true | _ => false end.

(** The order on numbers that are not [NaN]. *)
Definition le (a b : num) : Prop := leb a b = true.

(** [10^e] for an integer exponent. *)
Definition pow10 (e : Z) : Qc :=
  if (0 <=? e)%Z then Q2Qc (inject_Z (10 ^ e))
  else Q2Qc (/ inject_Z (10 ^ (- e))).

End Num.

Export Num(num, NaN, PInf, NInf, Fin).

(** ** JavaScript strings *)

Module Str.

Definition code (c : ascii) : Z := Z.of_N (N_of_ascii c).

(** WhiteSpace and LineTerminator code units below 256. *)
Definition is_ws (c : ascii) : bool :=
  let n := code c in
  ((9 <=? n) && (n <=? 13)) || (n =? 32) || (n =? 160).

Fixpoint trimStart (s : string) : string :=
  match s with
  | EmptyString => EmptyString
  | String c s' => if is_ws c then trimStart s' else s
  end.

Fixpoint trimEnd (s : string) : string :=
  match s with
  | EmptyString => EmptyString
  | String c s' =>
      match trimEnd s' with
      | EmptyString => if is_ws c then EmptyString else String c EmptyString
      | t => String c t
      end
  end.

(** [s.trim()] *)
Definition trim (s : string) : string := trimEnd (trimStart s).

(** [s.split(sep)] for a one-character separator. *)
Fixpoint split (sep : ascii) (s : string) : list string :=
  match s with
  | EmptyString => [EmptyString]
  | String c s' =>
      if Ascii.eqb c sep then EmptyString :: split sep s'
      else match split sep s' with
           | h :: t => String c h :: t
           | [] => [String c EmptyString]
           end
  end.

(** [l.join(sep)] on an array of strings. *)
Fixpoint join (sep : string) (l : list string) : string :=
  match l with
  | [] => EmptyString
  | [x] => x
  | x :: l' => x ++ sep ++ join sep l'
  end.

(** [s.includes(c)] for a one-character needle. *)
Fixpoint has_char (c : ascii) (s : string) : bool :=
  match s with
  | EmptyString => false
  | String d s' => Ascii.eqb d c || has_char c s'
  end.

(** [s.replace(/c/g, '')] *)
Fixpoint remove_char (c : ascii) (s : string) : string :=
  match s with
  | EmptyString => EmptyString
  | String d s' =>
      if Ascii.eqb d c then remove_char c s' else String d (remove_char c s')
  end.

(** [s.replace(/c/g, 'cc')] *)
Fixpoint double_char (c : ascii) (s : string) : string :=
  match s with
  | EmptyString => EmptyString
  | String d s' =>
      if Ascii.eqb d c then String c (String c (double_char c s'))
      else String d (double_char c s')
  end.

Fixpoint starts_with (p s : string) : bool :=
  match p, s with
  | EmptyString, _ => true
  | String a p', String b s' => Ascii.eqb a b && starts_with p' s'
  | String _ _, EmptyString => false
  end.

(** [s.includes(p)] *)
Fixpoint includes (s p : string) : bool :=
  starts_with p s ||
  match s with
  | EmptyString => false
  | String _ s' => includes s' p
  end.

Definition lower_char (c : ascii) : ascii :=
  let n := code c in
  if ((65 <=? n) && (n <=? 90))
     || ((192 <=? n) && (n <=? 222) && negb (n =? 215))
  then ascii_of_N (Z.to_N (n + 32)) else c.

(** [s.toLowerCase()] *)
Fixpoint toLowerCase (s : string) : string :=
  match s with
  | EmptyString => EmptyString
  | String c s' => String (lower_char c) (toLowerCase s')
  end.

Definition comma : ascii := ","%char.
Definition dquote : ascii := ascii_of_N 34.
Definition newline : ascii := ascii_of_N 10.

End Str.

(** ** Numeric literals in strings *)

Module NumLit.

Import Str.

Definition digit_of (radix : Z) (c : ascii) : option Z :=
  let n := code c in
  let d :=
    if (48 <=? n) && (n <=? 57) then n - 48
    else if (97 <=? n) && (n <=? 122) then n - 87
    else if (65 <=? n) && (n <=? 90) then n - 55
    else 99 in
  if d <? radix then Some d else None.

(** Reads the longest run of digits of [s]: the value read so far, the
    number of digits read and the rest of the string. *)
Fixpoint read_digits (radix : Z) (s : string) (acc : Z) (cnt : nat)
  : Z * nat * string :=
  match s with
  | EmptyString => (acc, cnt, s)
  | String c s' =>
      match digit_of radix c with
      | Some d => read_digits radix s' (acc * radix + d) (S cnt)
      | None => (acc, cnt, s)
      end
  end.

Definition read_sign (s : string) : bool * string :=
  match s with
  | String "-" s' => (true, s')
  | String "+" s' => (false, s')
  | _ => (false, s)
  end.

(** The exponent part [e±ddd]; when no digit follows, nothing is consumed. *)
Definition read_exponent (s : string) : Z * string :=
  match s with
  | String c s' =>
      if Ascii.eqb c "e" || Ascii.eqb c "E" then
        let '(sg, s'') := read_sign s' in
        let '(ev, n, rest) := read_digits 10 s'' 0 0%nat in
        match n with
        | O => (0, s)
        | _ => (if sg then - ev else ev, rest)
        end
      else (0, s)
  | EmptyString => (0, s)
  end.

(** An unsigned decimal literal at the head of [s]
    ([digits], [digits.], [digits.digits], [.digits], each with an
    optional exponent). *)
Definition read_unsigned (s : string) : option (Qc * string) :=
  let '(ip, n1, r1) := read_digits 10 s 0 0%nat in
  let '(fp, n2, r2, dot) :=
    match r1 with
    | String "." r =>
        let '(fp, n2, r2) := read_digits 10 r 0 0%nat in (fp, n2, r2, true)
    | _ => (0, 0%nat, r1, false)
    end in
  match n1, n2 with
  | O, O => None
  | _, _ =>
      let '(ex, r3) := read_exponent r2 in
      Some ((Q2Qc (inject_Z (ip * 10 ^ Z.of_nat n2 + fp))
             * Num.pow10 (ex - Z.of_nat n2))%Qc, r3)
  end.

Definition drop_prefix (p s : string) : option string :=
  if starts_with p s
  then Some (String.substring (String.length p)
                              (String.length s - String.length p) s)
  else None.

(** StrDecimalLiteral at the head of [s]: the value and the rest. *)
Definition read_decimal (s : string) : option (num * string) :=
  let '(sg, r) := read_sign s in
  match drop_prefix "Infinity" r with
  | Some rest => Some (if sg then NInf else PInf, rest)
  | None =>
      match read_unsigned r with
      | Some (q, rest) => Some (Fin (if sg then - q else q)%Qc, rest)
      | None => None
      end
  end.

(** [parseFloat] on a string: leading white space is skipped and the
    longest prefix that is a decimal literal is converted. *)
Definition parseFloat_string (s : string) : num :=
  match read_decimal (trimStart s) with
  | Some (v, _) => v
  | None => NaN
  end.

Definition read_radix (radix : Z) (s : string) : num :=
  match read_digits radix s 0 0%nat with
  | (v, S _, EmptyString) => Num.of_Z v
  | _ => NaN
  end.

(** StringToNumber: the whole trimmed string must be a numeric literal;
    the empty string is 0. *)
Definition ToNumber_string (s : string) : num :=
  match trim s with
  | EmptyString => Num.zero
  | String "0" (String c r) as t =>
      if Ascii.eqb c "x" || Ascii.eqb c "X" then read_radix 16 r
      else if Ascii.eqb c "o" || Ascii.eqb c "O" then read_radix 8 r
      else if Ascii.eqb c "b" || Ascii.eqb c "B" then read_radix 2 r
      else match read_decimal t with
           | Some (v, EmptyString) => v
           | _ => NaN
           end
  | t => match read_decimal t with
         | Some (v, EmptyString) => v
         | _ => NaN
         end
  end.

(** Decimal digits of the fraction [r / d], at most [fuel] of them. *)
Fixpoint frac_digits (fuel : nat) (r d : Z) : string :=
  match fuel with
  | O => EmptyString
  | S fuel' =>
      if r =? 0 then EmptyString
      else pretty ((10 * r) / d) ++ frac_digits fuel' ((10 * r) mod d) d
  end.

(** Number::toString in plain decimal notation (no exponent form; a
    fraction that does not terminate is cut after 20 digits). *)
Definition Number_toString (a : num) : string :=
  match a with
  | NaN => "NaN"
  | PInf => "Infinity"
  | NInf => "-Infinity"
  | Fin q =>
      let n := Qnum (this q) in
      let d := Zpos (Qden (this q)) in
      let ip := Z.abs n / d in
      let r := Z.abs n mod d in
      (if n <? 0 then "-" else "") ++ pretty ip ++
      (if r =? 0 then "" else "." ++ frac_digits 20 r d)
  end.

End NumLit.

(** ** JavaScript values, rows and arrays *)

Module JS.

Import Str NumLit.

(** The scalars a cell can hold. *)
Inductive scalar : Type :=
  | VUndefined
  | VNull
  | VBool (b : bool)
  | VNum (n : num)
  | VStr (s : string).

(** [String(v)] *)
Definition ToString (v : scalar) : string :=
  match v with
  | VUndefined => "undefined"
  | VNull => "null"
  | VBool true => "true"
  | VBool false => "false"
  | VNum n => Number_toString n
  | VStr s => s
  end.

(** [Number(v)] *)
Definition ToNumber (v : scalar) : num :=
  match v with
  | VUndefined => NaN
  | VNull => Num.zero
  | VBool true => Num.of_Z 1
  | VBool false => Num.zero
  | VNum n => n
  | VStr s => ToNumber_string s
  end.

(** [parseFloat(v)]: the argument is converted to a string and parsed.  The
    string form of a number parses back to that number, so a number is
    returned as it is. *)
Definition parseFloat (v : scalar) : num :=
  match v with
  | VNum n => n
  | _ => parseFloat_string (ToString v)
  end.

(** ToBoolean: the falsy values are undefined, null, false, 0, NaN and the
    empty string. *)
Definition truthy (v : scalar) : bool :=
  match v with
  | VUndefined | VNull => false
  | VBool b => b
  | VNum n => negb (Num.isNaN n || Num.eqb n Num.zero)
  | VStr s => negb (String.eqb s "")
  end.

(** [a || b] *)
Definition or_else (a b : scalar) : scalar := if truthy a then a else b.

(** [a || b] on numbers *)
Definition num_or (a b : num) : num := if truthy (VNum a) then a else b.

(** [a === b] *)
Definition strict_eq (a b : scalar) : bool :=
  match a, b with
  | VUndefined, VUndefined | VNull, VNull => true
  | VBool x, VBool y => Bool.eqb x y
  | VNum x, VNum y => Num.eqb x y
  | VStr x, VStr y => String.eqb x y
  | _, _ => false
  end.

(** [a == b] *)
Definition loose_eq (a b : scalar) : bool :=
  match a, b with
  | (VUndefined | VNull), (VUndefined | VNull) => true
  | (VUndefined | VNull), _ | _, (VUndefined | VNull) => false
  | VStr x, VStr y => String.eqb x y
  | _, _ => Num.eqb (ToNumber a) (ToNumber b)
  end.

(** [v === null || v === undefined || v === ''] *)
Definition is_missing (v : scalar) : bool :=
  strict_eq v VNull || strict_eq v VUndefined || strict_eq v (VStr "").

(** A row object. *)
Abbreviation row := (gmap string scalar).

(** [r[k]] *)
Definition get (r : row) (k : string) : scalar := default VUndefined (r !! k).

(** [Object.keys(o)] *)
Definition Object_keys {V : Type} (o : gmap string V) : list string :=
  (map_to_list o).*1.

(** The names of the members of Object.prototype, which every plain
    object inherits: the methods and the constructor, and the accessor
    [__proto__] with the four legacy methods of the same kind.  Each of
    these members is a function, or for [__proto__] the prototype object
    itself: a truthy value without a method [push]. *)
Definition Object_prototype_names : list string :=
  [ "constructor"; "hasOwnProperty"; "isPrototypeOf"; "propertyIsEnumerable";
    "toLocaleString"; "toString"; "valueOf"; "__proto__";
    "__defineGetter__"; "__defineSetter__";
    "__lookupGetter__"; "__lookupSetter__" ].

Definition inherited (k : string) : bool :=
  existsb (String.eqb k) Object_prototype_names.

(** What a computed read [o[k]] finds in a plain object whose own
    properties are [o]. *)
Inductive member (V : Type) : Type :=
  | Own (v : V)
  | Inherited
  | Absent.
Arguments Own {V} v.
Arguments Inherited {V}.
Arguments Absent {V}.

Definition read {V : Type} (o : gmap string V) (k : string) : member V :=
  match o !! k with
  | Some v => Own v
  | None => if inherited k then Inherited else Absent
  end.

(** *** Array.prototype.sort

    The comparator's result [v] orders [x] before [y] when [v < 0], [y]
    before [x] when [v > 0], and leaves them tied otherwise: the sort reads
    a [NaN] as [+0].  For a comparator that is consistent on the elements
    the language fixes the result: the elements in ascending order, tied
    ones in the order they had.  That is what stable insertion computes:
    each element, from the last to the first, is placed in front of the
    first element that it does not have to follow.  For a comparator that
    is not consistent the order is left to the engine, of which
    [arrangement] is the choice: the positions of the array in the order
    the engine returns them. *)
Section Sort.
Context {A : Type}.
Variable arrangement : (A -> A -> num) -> list A -> list nat.
Variable comparefn : A -> A -> num.

Definition follows (x y : A) : bool := Num.gtb (comparefn x y) Num.zero.

Fixpoint place (x : A) (l : list A) : list A :=
  match l with
  | [] => [x]
  | y :: l' => if follows x y then y :: place x l' else x :: l
  end.

Fixpoint stable_sort (l : list A) : list A :=
  match l with
  | [] => []
  | x :: l' => place x (stable_sort l')
  end.

(** The sign the sort reads from a result of the comparator. *)
Definition sign (v : num) : comparison :=
  if Num.gtb v Num.zero then Gt
  else if Num.ltb v Num.zero then Lt else Eq.

Definition order (x y : A) : comparison := sign (comparefn x y).

Definition is_sign (c d : comparison) : bool :=
  match c, d with
  | Eq, Eq | Lt, Lt | Gt, Gt => true
  | _, _ => false
  end.

(** The requirements of a consistent comparator at three elements: a tie
    is reflexive, symmetric and transitive, and so are, transitive, before
    and after. *)
Definition consistent_at (a b c : A) : bool :=
  is_sign (order a a) Eq
  && implb (is_sign (order a b) Eq) (is_sign (order b a) Eq)
  && implb (is_sign (order a b) Eq && is_sign (order b c) Eq) (is_sign (order a c) Eq)
  && implb (is_sign (order a b) Lt && is_sign (order b c) Lt) (is_sign (order a c) Lt)
  && implb (is_sign (order a b) Gt && is_sign (order b c) Gt) (is_sign (order a c) Gt).

Definition consistent_on (l : list A) : bool :=
  forallb (fun a => forallb (fun b => forallb (consistent_at a b) l) l) l.

Fixpoint distinct (positions : list nat) : bool :=
  match positions with
  | [] => true
  | i :: rest => negb (existsb (Nat.eqb i) rest) && distinct rest
  end.

(** The array in the order of a list of positions that names every
    position of the array once. *)
Definition rearrange (positions : list nat) (l : list A) : option (list A) :=
  if distinct positions && (length positions =? length l)%nat
  then mapM (fun i => l !! i) positions
  else None.

(** [l.sort(comparefn)] on a copy.  A choice of the engine that is no
    rearrangement of the array is no choice: the stable order stands in. *)
Definition Array_sort (l : list A) : list A :=
  if consistent_on l then stable_sort l
  else default (stable_sort l) (rearrange (arrangement comparefn l) l).
End Sort.

(** *** Set

    A set keeps its elements in the order of their first insertion and
    compares them by SameValueZero: [===], except that [NaN] is the same
    value as [NaN]. *)
Definition same_value_zero (a b : scalar) : bool :=
  match a, b with
  | VNum x, VNum y => (Num.isNaN x && Num.isNaN y) || Num.eqb x y
  | _, _ => strict_eq a b
  end.

(** [s.add(v)] *)
Definition Set_add (s : list scalar) (v : scalar) : list scalar :=
  if existsb (same_value_zero v) s then s else (s ++ [v])%list.

(** [[...new Set(values)]] *)
Definition Set_from (values : list scalar) : list scalar :=
  foldl Set_add [] values.

(** *** Array.prototype.slice *)

(** A relative index: negative counts from the end; clamped to the array. *)
Definition rel_index (len k : Z) : Z :=
  if k <? 0 then Z.max (len + k) 0 else Z.min k len.

Definition slice {A : Type} (l : list A) (start : Z) (fin : option Z) : list A :=
  let len := Z.of_nat (length l) in
  let from := rel_index len start in
  let to := match fin with Some e => rel_index len e | None => len end in
  take (Z.to_nat (to - from)) (drop (Z.to_nat from) l).

(** [a[i]] on an array of numbers used in arithmetic: out of range gives
    undefined, which arithmetic turns into [NaN]. *)
Definition at_num (l : list num) (i : nat) : num := nth i l NaN.

(** [Math.min(...l)] and [Math.max(...l)] *)
Definition Math_min (l : list num) : num :=
  foldl (fun acc x => if Num.isNaN x || Num.isNaN acc then NaN
                      else if Num.ltb x acc then x else acc) PInf l.
Definition Math_max (l : list num) : num :=
  foldl (fun acc x => if Num.isNaN x || Num.isNaN acc then NaN
                      else if Num.gtb x acc then x else acc) NInf l.

(** [l.join(sep)] on an array of values: undefined and null give the empty
    string, every other element its string form. *)
Definition join_values (sep : string) (l : list scalar) : string :=
  join sep (map (fun v => match v with
                          | VUndefined | VNull => ""
                          | _ => ToString v
                          end) l).

(** *** The regular expression of the date check:
    [\d{4}-\d{2}-\d{2}|\d{2}\/\d{2}\/\d{4}], searched anywhere in the string. *)
Inductive atom : Type := Digit | Lit (c : ascii).

Definition atom_matches (a : atom) (c : ascii) : bool :=
  match a with
  | Digit => (48 <=? code c) && (code c <=? 57)
  | Lit d => Ascii.eqb c d
  end.

Fixpoint match_here (p : list atom) (s : string) : bool :=
  match p, s with
  | [], _ => true
  | a :: p', String c s' => atom_matches a c && match_here p' s'
  | _ :: _, EmptyString => false
  end.

Fixpoint search (p : list atom) (s : string) : bool :=
  match_here p s ||
  match s with
  | EmptyString => false
  | String _ s' => search p s'
  end.

Definition iso_pattern : list atom :=
  [Digit; Digit; Digit; Digit; Lit "-"; Digit; Digit; Lit "-"; Digit; Digit].
Definition slash_pattern : list atom :=
  [Digit; Digit; Lit "/"; Digit; Digit; Lit "/"; Digit; Digit; Digit; Digit].

Definition date_regex_matches (s : string) : bool :=
  search iso_pattern s || search slash_pattern s.

End JS.

Export JS(scalar, VUndefined, VNull, VBool, VNum, VStr).
Abbreviation row := (gmap string scalar).

(** ** The data model of the application (App.tsx, dataProcessor.ts)

    Of [FieldInfo] and [DataFile] only the members the engine reads are
    kept.  The members [field], [value] and [value2] of a filter condition
    and [field] of a sort condition carry a prefix, record projections
    sharing one name space. *)

Inductive FieldType : Type := TString | TNumber | TDate.

Record FieldInfo : Type := { name : string; type : FieldType }.

Record DataFile : Type := { data : list row; fields : list FieldInfo }.

Inductive Operator : Type :=
  | Equals | Contains | Greater | Less | Between | NotEmpty.

Record FilterCondition : Type :=
  { fc_field : string; operator : Operator;
    fc_value : scalar; fc_value2 : scalar }.

Inductive Direction : Type := Asc | Desc.

Record SortCondition : Type := { sc_field : string; direction : Direction }.

Inductive Operation : Type := Sum | Avg | Count | Min | Max.

Inductive Method : Type := Random | First | Last.

Inductive Format : Type := CSV | JSON.

Record NumericStats : Type :=
  { st_min : num; st_max : num; st_avg : num; st_median : num }.

#[global] Instance FieldType_eq_dec : EqDecision FieldType.
Proof. solve_decision. Defined.

Definition is_number (t : FieldType) : bool :=
  match t with TNumber => true | _ => false end.
Definition is_string (t : FieldType) : bool :=
  match t with TString => true | _ => false end.
Definition is_date (t : FieldType) : bool :=
  match t with TDate => true | _ => false end.

Record DataStats : Type :=
  { totalRows : nat; totalColumns : nat;
    numericFields : nat; textFields : nat; dateFields : nat;
    missingValues : nat }.

(** ** The engine: class [DataProcessor] *)

Module DataProcessor.

Section Engine.

Import JS.

(** [a.localeCompare(b)]: left to the locale. *)
Variable localeCompare : string -> string -> num.
(** [new Date(v).getTime()]: the time value in milliseconds, [None] for an
    invalid date; the accepted formats are left to the engine. *)
Variable Date_time : scalar -> option Z.
(** [d.toISOString()] for a valid date of the given time value. *)
Variable Date_toISOString : Z -> string.
(** [JSON.stringify(rows, null, 2)] *)
Variable JSON_stringify : list row -> string.
(** The arrangement [[...data].sort(() => 0.5 - Math.random())] leaves. *)
Variable shuffle : list row -> list row.
(** The positions in the order the engine's sort returns them when the
    comparator is not consistent. *)
Variable arrangement : forall A : Type, (A -> A -> num) -> list A -> list nat.

Definition getTime (v : scalar) : num :=
  match Date_time v with
  | Some t => Num.of_Z t
  | None => NaN
  end.

(** [this.fields.find(f => f.name === fieldName)] *)
Definition find_field (fs : list FieldInfo) (fieldName : string)
  : option FieldInfo :=
  List.find (fun f => String.eqb (name f) fieldName) fs.

(** The receiver [this] of every method is the data file [df]. *)
Variable df : DataFile.

Definition parsed_values (fieldName : string) : list num :=
  List.filter (fun v => negb (Num.isNaN v))
    (map (fun r => parseFloat (get r fieldName)) (data df)).

Definition median_of (values : list num) : num :=
  let len := length values in
  if (len mod 2 =? 0)%nat
  then Num.div (Num.add (at_num values (len / 2 - 1))
                        (at_num values (len / 2))) (Num.of_Z 2)
  else at_num values (len / 2).

Definition getNumericStats (fieldName : string) : option NumericStats :=
  match find_field (fields df) fieldName with
  | None => None
  | Some field =>
      if negb (is_number (type field)) then None
      else
        let values :=
          Array_sort (arrangement num) (fun a b => Num.sub a b)
                     (parsed_values fieldName) in
        match values with
        | [] => None
        | _ :: _ =>
            Some {| st_min := at_num values 0;
                    st_max := at_num values (length values - 1);
                    st_avg := Num.div (foldl Num.add Num.zero values)
                                      (Num.of_nat (length values));
                    st_median := median_of values |}
        end
  end.

(** One condition of [filter] on one row. *)
Definition satisfies (r : row) (condition : FilterCondition) : bool :=
  let value := get r (fc_field condition) in
  match operator condition with
  | Equals => loose_eq value (fc_value condition)
  | Contains =>
      Str.includes (Str.toLowerCase (ToString value))
                   (Str.toLowerCase (ToString (fc_value condition)))
  | Greater => Num.gtb (parseFloat value) (parseFloat (fc_value condition))
  | Less => Num.ltb (parseFloat value) (parseFloat (fc_value condition))
  | Between =>
      let numValue := parseFloat value in
      Num.geb numValue (parseFloat (fc_value condition))
      && Num.leb numValue (parseFloat (fc_value2 condition))
  | NotEmpty =>
      negb (strict_eq value VNull) && negb (strict_eq value VUndefined)
      && negb (strict_eq value (VStr ""))
  end.

Definition filter (conditions : list FilterCondition) : list row :=
  List.filter (fun r => forallb (satisfies r) conditions) (data df).

(** The per-field comparison of [sort] for one condition. *)
Definition comparison_of (condition : SortCondition) (a b : row) : num :=
  let aValue := get a (sc_field condition) in
  let bValue := get b (sc_field condition) in
  match type <$> find_field (fields df) (sc_field condition) with
  | Some TNumber => Num.sub (parseFloat aValue) (parseFloat bValue)
  | Some TDate => Num.sub (getTime aValue) (getTime bValue)
  | _ => localeCompare (ToString aValue) (ToString bValue)
  end.

(** The comparator of [sort]: the first condition whose comparison is not
    [0] decides. *)
Fixpoint compare_rows (conditions : list SortCondition) (a b : row) : num :=
  match conditions with
  | [] => Num.zero
  | condition :: rest =>
      let comparison := comparison_of condition a b in
      if negb (Num.eqb comparison Num.zero)
      then match direction condition with
           | Asc => comparison
           | Desc => Num.neg comparison
           end
      else compare_rows rest a b
  end.

Definition sort (rows : list row) (conditions : list SortCondition)
  : list row :=
  Array_sort (arrangement row) (compare_rows conditions) rows.

(** The key [groupBy] files a row under. *)
Definition group_key (fieldName : string) (r : row) : string :=
  ToString (or_else (get r fieldName) (VStr "Unknown")).

(** One turn of the loop of [groupBy] on the object [groups].  An own
    group is an array, hence truthy, and so is an inherited member: only
    an absent key gets a new empty group.  Then [groups[key].push(row)]
    appends to an own group and throws a TypeError on an inherited member,
    which has no [push]. *)
Definition file_row (fieldName : string) (groups : gmap string (list row))
    (r : row) : option (gmap string (list row)) :=
  let key := group_key fieldName r in
  let groups' :=
    match read groups key with
    | Absent => <[key := []]> groups
    | _ => groups
    end in
  match read groups' key with
  | Own g => Some (<[key := (g ++ [r])%list]> groups')
  | _ => None
  end.

Definition groupBy (fieldName : string) : option (gmap string (list row)) :=
  foldl (fun (groups : option (gmap string (list row))) r =>
           match groups with
           | Some groups => file_row fieldName groups r
           | None => None
           end)
        (Some ∅) (data df).

Definition aggregate_group (valueField : string) (operation : Operation)
    (groupData : list row) : num :=
  match operation with
  | Count => Num.of_nat (length groupData)
  | Sum =>
      foldl (fun sum r =>
               Num.add sum (num_or (parseFloat (get r valueField)) Num.zero))
            Num.zero groupData
  | Avg =>
      let values := List.filter (fun v => negb (Num.isNaN v))
                      (map (fun r => parseFloat (get r valueField)) groupData) in
      if (0 <? length values)%nat
      then Num.div (foldl Num.add Num.zero values) (Num.of_nat (length values))
      else Num.zero
  | Min =>
      let minValues := List.filter (fun v => negb (Num.isNaN v))
                         (map (fun r => parseFloat (get r valueField)) groupData) in
      if (0 <? length minValues)%nat then Math_min minValues else Num.zero
  | Max =>
      let maxValues := List.filter (fun v => negb (Num.isNaN v))
                         (map (fun r => parseFloat (get r valueField)) groupData) in
      if (0 <? length maxValues)%nat then Math_max maxValues else Num.zero
  end.

(** The keys of [groups] are own keys that [groupBy] created, none of
    them the name of an inherited member: [result[key] = ...] creates an
    own property of [result]. *)
Definition aggregate (groupField valueField : string) (operation : Operation)
  : option (gmap string num) :=
  match groupBy groupField with
  | None => None
  | Some groups =>
      Some (foldl (fun (result : gmap string num) key =>
                     let groupData := default [] (groups !! key) in
                     <[key := aggregate_group valueField operation groupData]>
                       result)
                  ∅ (Object_keys groups))
  end.

Definition sample (size : Z) (method : Method) : list row :=
  if (Z.of_nat (length (data df)) <=? size)%Z then data df
  else match method with
       | First => slice (data df) 0 (Some size)
       | Last => slice (data df) (- size) None
       | Random => slice (shuffle (data df)) 0 (Some size)
       end.

(** The value [clean] stores for one cell of a field of type [t]. *)
Definition clean_cell (t : FieldType) (value : scalar) : scalar :=
  if is_missing value then
    match t with
    | TNumber => VNum Num.zero
    | TString => VStr ""
    | TDate => VNull
    end
  else
    match t with
    | TNumber =>
        let n := parseFloat value in
        VNum (if Num.isNaN n then Num.zero else n)
    | TString => VStr (Str.trim (ToString value))
    | TDate =>
        match Date_time value with
        | None => VNull
        | Some t =>
            VStr (default "" (head (Str.split "T" (Date_toISOString t))))
        end
    end.

Definition clean_row (r : row) : row :=
  foldl (fun (cleanedRow : row) field =>
           <[name field := clean_cell (type field) (get r (name field))]>
             cleanedRow)
        ∅ (fields df).

Definition clean : list row := map clean_row (data df).

(** The cell text of the csv branch of [export], before the join. *)
Definition csv_cell (value : scalar) : scalar :=
  match value with
  | VStr s =>
      if Str.has_char Str.comma s || Str.has_char Str.dquote s
      then VStr (String Str.dquote
                   (Str.double_char Str.dquote s ++ String Str.dquote ""))
      else value
  | _ => value
  end.

Definition export (rows : list row) (format : Format) : string :=
  match format with
  | JSON => JSON_stringify rows
  | CSV =>
      match rows with
      | [] => ""
      | first :: _ =>
          let headers := Object_keys first in
          let csvRows :=
            Str.join "," headers
            :: map (fun r => join_values ","
                               (map (fun header => csv_cell (get r header))
                                    headers)) rows in
          Str.join (String Str.newline "") csvRows
      end
  end.

(** [missingValues++] for every field of [r] whose cell is missing. *)
Definition count_missing (missing : nat) (r : row) : nat :=
  foldl (fun missing field =>
           if is_missing (get r (name field)) then S missing else missing)
        missing (fields df).

Definition getStats : DataStats :=
  {| totalRows := length (data df);
     totalColumns := length (fields df);
     numericFields :=
       length (List.filter (fun f => is_number (type f)) (fields df));
     textFields :=
       length (List.filter (fun f => is_string (type f)) (fields df));
     dateFields :=
       length (List.filter (fun f => is_date (type f)) (fields df));
     missingValues := foldl count_missing 0%nat (data df) |}.

Definition getUniqueValues (fieldName : string) : list scalar :=
  let values := map (fun r => get r fieldName) (data df) in
  List.filter (fun v => negb (strict_eq v VNull)
                        && negb (strict_eq v VUndefined)
                        && negb (strict_eq v (VStr "")))
              (Set_from values).

End Engine.

End DataProcessor.

(** ** The ingestion helpers (FileUploadPanel.tsx) *)

Module FileUpload.

Section Ingestion.

Import JS.

Variable Date_time : scalar -> option Z.

(** [t.trim()] with every double quote removed. *)
Definition clean_token (t : string) : string :=
  Str.remove_char Str.dquote (Str.trim t).

(** [headers.forEach((header, index) => row[header] = values[index] || '')]:
    an index past the end of [values] gives undefined, hence [''] too. *)
Fixpoint fill_row (headers : list string) (index : nat) (values : list string)
    (r : row) : row :=
  match headers with
  | [] => r
  | header :: rest =>
      fill_row rest (S index) values
               (<[header := VStr (default "" (values !! index))]> r)
  end.

Definition parseCSV (text : string) : list row :=
  match Str.split Str.newline (Str.trim text) with
  | [] => []
  | line0 :: lines =>
      let headers := map clean_token (Str.split Str.comma line0) in
      map (fun line =>
             let values := map clean_token (Str.split Str.comma line) in
             fill_row headers 0 values ∅)
          lines
  end.

(** The sampled, non-missing values of a column. *)
Definition nonNullValues (rows : list row) (key : string) : list scalar :=
  List.filter (fun v => negb (is_missing v))
              (map (fun r => get r key) (take 100 rows)).

Definition numericCount (rows : list row) (key : string) : nat :=
  length (List.filter (fun v => negb (Num.isNaN (ToNumber v)))
                      (nonNullValues rows key)).

Definition dateCount (rows : list row) (key : string) : nat :=
  length (List.filter
            (fun v => match Date_time v with
                      | Some _ => date_regex_matches (ToString v)
                      | None => false
                      end)
            (nonNullValues rows key)).

(** The literal [0.8]. *)
Definition threshold : num := Fin (Q2Qc (4 # 5)).

Definition infer_type (rows : list row) (key : string) : FieldType :=
  let total := Num.of_nat (length (nonNullValues rows key)) in
  let isNumeric :=
    Num.gtb (Num.div (Num.of_nat (numericCount rows key)) total) threshold in
  let isDate :=
    Num.gtb (Num.div (Num.of_nat (dateCount rows key)) total) threshold in
  if isNumeric then TNumber else if isDate then TDate else TString.

Definition analyzeFields (rows : list row) : list FieldInfo :=
  match rows with
  | [] => []
  | first :: _ =>
      map (fun key => {| name := key; type := infer_type rows key |})
          (Object_keys first)
  end.

(** [s.endsWith(suffix)] *)
Definition endsWith (s suffix : string) : bool :=
  Str.starts_with suffix
    (String.substring (String.length s - String.length suffix)
                      (String.length suffix) s)
  && (String.length suffix <=? String.length s)%nat.

(** [JSON.parse(text)] when the text is a JSON array of flat rows, [None]
    when the parse throws or the value is not an array. *)
Variable JSON_parse : string -> option (list row).

(** What [processFile] hands to [onFileUpload], or the failure it alerts.
    The members [id] and [name] of the data file are not kept. *)
Inductive outcome : Type :=
  | Uploaded (file : DataFile) (fileType : Format)
  | Failed.

(** The data file built from the parsed rows. *)
Definition build_file (rows : list row) : DataFile :=
  {| data := slice rows 0 (Some 1000); fields := analyzeFields rows |}.

Definition processFile (fileName text : string) : outcome :=
  if endsWith (Str.toLowerCase fileName) ".json" then
    match JSON_parse text with
    | Some rows => Uploaded (build_file rows) JSON
    | None => Failed
    end
  else if endsWith (Str.toLowerCase fileName) ".csv" then
    Uploaded (build_file (parseCSV text)) CSV
  else Failed.

End Ingestion.

End FileUpload.

(** ** The processing panel (DataProcessingPanel.tsx) *)

Module DataProcessingPanel.

Section Panel.

Variable localeCompare : string -> string -> num.
Variable Date_time : scalar -> option Z.
Variable arrangement : forall A : Type, (A -> A -> num) -> list A -> list nat.
Variable dataFile : DataFile.

(** The rows [applyProcessing] hands to [onDataUpdate]. *)
Definition applyProcessing (filters : list FilterCondition)
    (sorts : list SortCondition) : list row :=
  let result := DataProcessor.filter dataFile filters in
  DataProcessor.sort localeCompare Date_time arrangement dataFile result sorts.

(** [l.filter((_, i) => i !== index)], the elements counted from [i]. *)
Fixpoint filter_index {A : Type} (l : list A) (i index : nat) : list A :=
  match l with
  | [] => []
  | x :: l' =>
      if Nat.eqb i index then filter_index l' (S i) index
      else x :: filter_index l' (S i) index
  end.

Definition removeFilter (filters : list FilterCondition) (index : nat)
  : list FilterCondition :=
  filter_index filters 0 index.

Definition removeSort (sorts : list SortCondition) (index : nat)
  : list SortCondition :=
  filter_index sorts 0 index.

End Panel.

End DataProcessingPanel.

(** ** A reference host for closed examples

    Strings compare by code units; a date is valid when its text is a
    calendar date [YYYY-MM-DD], whose time value is midnight UTC. *)

Module RefHost.

Import Str.

Fixpoint compare_units (a b : string) : comparison :=
  match a, b with
  | EmptyString, EmptyString => Eq
  | EmptyString, String _ _ => Lt
  | String _ _, EmptyString => Gt
  | String x a', String y b' =>
      match (code x ?= code y)%Z with
      | Eq => compare_units a' b'
      | c => c
      end
  end.

Definition localeCompare (a b : string) : num :=
  match compare_units a b with
  | Lt => Num.of_Z (-1)
  | Eq => Num.of_Z 0
  | Gt => Num.of_Z 1
  end.

(** Days since 1970-01-01 of a date of the proleptic Gregorian calendar,
    and back. *)
Definition days_from_civil (y m d : Z) : Z :=
  let y' := if m <=? 2 then y - 1 else y in
  let era := y' / 400 in
  let yoe := y' - era * 400 in
  let doy := (153 * (if 2 <? m then m - 3 else m + 9) + 2) / 5 + d - 1 in
  let doe := yoe * 365 + yoe / 4 - yoe / 100 + doy in
  era * 146097 + doe - 719468.

Definition civil_from_days (z : Z) : Z * Z * Z :=
  let z' := z + 719468 in
  let era := z' / 146097 in
  let doe := z' - era * 146097 in
  let yoe := (doe - doe / 1460 + doe / 36524 - doe / 146096) / 365 in
  let doy := doe - (365 * yoe + yoe / 4 - yoe / 100) in
  let mp := (5 * doy + 2) / 153 in
  let d := doy - (153 * mp + 2) / 5 + 1 in
  let m := if mp <? 10 then mp + 3 else mp - 9 in
  (if m <=? 2 then yoe + era * 400 + 1 else yoe + era * 400, m, d).

Definition ms_per_day : Z := 86400000.

Definition digit_char (d : Z) : ascii := ascii_of_N (Z.to_N (48 + d)).

Definition pad2 (n : Z) (rest : string) : string :=
  String (digit_char (n / 10 mod 10)) (String (digit_char (n mod 10)) rest).
Definition pad3 (n : Z) (rest : string) : string :=
  String (digit_char (n / 100 mod 10)) (pad2 n rest).
Definition pad4 (n : Z) (rest : string) : string :=
  String (digit_char (n / 1000 mod 10)) (pad3 n rest).
Definition pad6 (n : Z) (rest : string) : string :=
  String (digit_char (n / 100000 mod 10))
         (String (digit_char (n / 10000 mod 10)) (pad4 n rest)).

(** [YYYY-MM-DDTHH:mm:ss.sssZ], the year with a sign and six digits outside
    0..9999. *)
Definition Date_toISOString (t : Z) : string :=
  let '(y, m, d) := civil_from_days (t / ms_per_day) in
  let ms := t mod ms_per_day in
  let time :=
    String "T" (pad2 (ms / 3600000)
      (String ":" (pad2 (ms / 60000 mod 60)
        (String ":" (pad2 (ms / 1000 mod 60)
          (String "." (pad3 (ms mod 1000) "Z"))))))) in
  let date := pad2 m (String "-" (pad2 d time)) in
  if (0 <=? y) && (y <=? 9999) then pad4 y (String "-" date)
  else String (if y <? 0 then "-"%char else "+"%char)
              (pad6 (Z.abs y) (String "-" date)).

Definition digit (c : ascii) : option Z := NumLit.digit_of 10 c.

(** The fields of a text [YYYY-MM-DD]. *)
Definition read_date (s : string) : option (Z * Z * Z) :=
  match s with
  | String y1 (String y2 (String y3 (String y4 (String s1
      (String m1 (String m2 (String s2 (String d1 (String d2 "")))))))))
    =>
      if Ascii.eqb s1 "-" && Ascii.eqb s2 "-" then
        match digit y1, digit y2, digit y3, digit y4,
              digit m1, digit m2, digit d1, digit d2 with
        | Some a, Some b, Some c, Some d, Some e, Some f, Some g, Some h =>
            Some (1000 * a + 100 * b + 10 * c + d, 10 * e + f, 10 * g + h)
        | _, _, _, _, _, _, _, _ => None
        end
      else None
  | _ => None
  end.

(** A date text is valid when its fields are those of the day they
    denote. *)
Definition Date_time (v : scalar) : option Z :=
  match v with
  | VStr s =>
      match read_date s with
      | Some (y, m, d) =>
          let days := days_from_civil y m d in
          match civil_from_days days with
          | (y', m', d') =>
              if (y' =? y) && (m' =? m) && (d' =? d)
              then Some (days * ms_per_day) else None
          end
      | None => None
      end
  | _ => None
  end.

(** JSON.stringify with an indentation of two spaces, for an array of flat
    rows. *)
Definition hex_char (d : Z) : ascii :=
  if d <? 10 then digit_char d else ascii_of_N (Z.to_N (87 + d)).

Definition json_escape_char (c : ascii) (rest : string) : string :=
  let n := code c in
  if n =? 34 then String "\" (String c rest)
  else if n =? 92 then String "\" (String "\" rest)
  else if n =? 8 then String "\" (String "b" rest)
  else if n =? 9 then String "\" (String "t" rest)
  else if n =? 10 then String "\" (String "n" rest)
  else if n =? 12 then String "\" (String "f" rest)
  else if n =? 13 then String "\" (String "r" rest)
  else if n <? 32
  then String "\" (String "u" (String "0" (String "0"
         (String (hex_char (n / 16)) (String (hex_char (n mod 16)) rest)))))
  else String c rest.

Fixpoint json_escape (s : string) : string :=
  match s with
  | EmptyString => EmptyString
  | String c s' => json_escape_char c (json_escape s')
  end.

Definition json_quote (s : string) : string :=
  String dquote (json_escape s ++ String dquote "").

Definition json_value (v : scalar) : string :=
  match v with
  | VUndefined | VNull => "null"
  | VBool true => "true"
  | VBool false => "false"
  | VNum (Fin q) => NumLit.Number_toString (Fin q)
  | VNum _ => "null"
  | VStr s => json_quote s
  end.

Definition json_object (r : row) : string :=
  let props :=
    List.filter (fun kv => match snd kv with VUndefined => false | _ => true end)
                (map_to_list r) in
  match props with
  | [] => "  {}"
  | _ :: _ =>
      "  {" ++ String newline "" ++
      join ("," ++ String newline "")
           (map (fun kv => "    " ++ json_quote (fst kv) ++ ": "
                             ++ json_value (snd kv)) props)
      ++ String newline "" ++ "  }"
  end.

Definition JSON_stringify (rows : list row) : string :=
  match rows with
  | [] => "[]"
  | _ :: _ =>
      "[" ++ String newline "" ++
      join ("," ++ String newline "") (map json_object rows)
      ++ String newline "" ++ "]"
  end.

(** *** The arrangement of an engine

    Binary insertion after the leading run, the way a sort built on
    TimSort arranges an array of fewer than 64 elements: the leading run,
    reversed when it descends, is kept, and each later element is put
    where a binary search of the part already arranged ends. *)
Section Arrangement.
Context {A : Type} (comparefn : A -> A -> num).

(** The comparator's result is below [0]; a [NaN] reads as [0]. *)
Definition before (x y : A) : bool := Num.ltb (comparefn x y) Num.zero.

(** The number of elements after [previous] that continue the run. *)
Fixpoint run_rest (descending : bool) (previous : A) (rest : list A) : nat :=
  match rest with
  | [] => 0%nat
  | current :: rest' =>
      if Bool.eqb (before current previous) descending
      then S (run_rest descending current rest')
      else 0%nat
  end.

Definition leading_run (l : list A) : list A * list A :=
  match l with
  | first :: second :: rest =>
      let descending := before second first in
      let n := (2 + run_rest descending second rest)%nat in
      (if descending then rev (take n l) else take n l, drop n l)
  | _ => (l, [])
  end.

Fixpoint search (fuel : nat) (sorted : list A) (pivot : A)
    (left right : nat) : nat :=
  match fuel with
  | O => left
  | S fuel' =>
      if (left <? right)%nat then
        let mid := (left + (right - left) / 2)%nat in
        match sorted !! mid with
        | Some x =>
            if before pivot x then search fuel' sorted pivot left mid
            else search fuel' sorted pivot (S mid) right
        | None => left
        end
      else left
  end.

Definition insert_binary (sorted : list A) (pivot : A) : list A :=
  let left := search (S (length sorted)) sorted pivot 0%nat (length sorted) in
  (take left sorted ++ pivot :: drop left sorted)%list.

Definition binary_insertion (l : list A) : list A :=
  foldl insert_binary (leading_run l).1 (leading_run l).2.

End Arrangement.

Definition arrangement (A : Type) (comparefn : A -> A -> num) (l : list A)
  : list nat :=
  (binary_insertion (fun p q : nat * A => comparefn p.2 q.2) (imap pair l)).*1.

End RefHost.

(** * Properties *)

(** ** Numeric literals: examples *)

Example parseFloat_string_ex1 : NumLit.parseFloat_string "10" = Num.of_Z 10.
Proof. vm_compute. reflexivity. Qed.
Example parseFloat_string_ex2 : NumLit.parseFloat_string " 2.5e1abc" = Num.of_Z 25.
Proof. vm_compute. reflexivity. Qed.
Example parseFloat_string_ex3 : NumLit.parseFloat_string "abc" = NaN.
Proof. vm_compute. reflexivity. Qed.
Example ToNumber_string_ex1 : NumLit.ToNumber_string "  " = Num.of_Z 0.
Proof. vm_compute. reflexivity. Qed.
Example ToNumber_string_ex2 : NumLit.ToNumber_string "5abc" = NaN.
Proof. vm_compute. reflexivity. Qed.
Example ToNumber_string_ex3 : NumLit.ToNumber_string "0x1F" = Num.of_Z 31.
Proof. vm_compute. reflexivity. Qed.
Example Number_toString_ex1 : NumLit.Number_toString (Fin (Q2Qc (-5 # 2))) = "-2.5".
Proof. vm_compute. reflexivity. Qed.
Example Number_toString_ex2 : NumLit.Number_toString (Num.of_Z 15) = "15".
Proof. vm_compute. reflexivity. Qed.

Local Open Scope nat_scope.
Local Open Scope list_scope.

(** ** Facts about strings *)

Module StrFacts.

Import Str.

(** A string is tight when it neither starts nor ends with white space. *)
Definition tight (s : string) : Prop := trim s = s.

Lemma trimStart_head (s : string) :
  match trimStart s with
  | EmptyString => True
  | String c _ => is_ws c = false
  end.
Proof.
  induction s as [|c s IH]; simpl; [done|].
  destruct (is_ws c) eqn:E; [exact IH | exact E].
Qed.

Lemma trimStart_id (c : ascii) (s : string) :
  is_ws c = false -> trimStart (String c s) = String c s.
Proof. intros E. simpl. by rewrite E. Qed.

Lemma trimEnd_head (c : ascii) (s : string) :
  is_ws c = false -> exists t, trimEnd (String c s) = String c t.
Proof.
  intros E. simpl. destruct (trimEnd s); rewrite ?E; eauto.
Qed.

Lemma trimEnd_idemp (s : string) : trimEnd (trimEnd s) = trimEnd s.
Proof.
  induction s as [|c s IH]; simpl; [done|].
  destruct (trimEnd s) as [|d t] eqn:E.
  - destruct (is_ws c) eqn:W; simpl; [done|]. by rewrite W.
  - simpl. simpl in IH. by rewrite IH.
Qed.

Lemma trim_idemp (s : string) : trim (trim s) = trim s.
Proof.
  unfold trim. pose proof (trimStart_head s) as H.
  destruct (trimStart s) as [|c u]; [done|].
  destruct (trimEnd_head c u H) as [t Ht]. rewrite Ht.
  rewrite trimStart_id by done. rewrite <- Ht. apply trimEnd_idemp.
Qed.

Lemma trim_tight (s : string) : tight (trim s).
Proof. apply trim_idemp. Qed.

End StrFacts.

(** ** Facts about numbers *)

(** Closes an equation between evaluated terms; two finite numbers are
    equal as soon as their fractions are. *)
Ltac by_evaluation :=
  vm_compute;
  repeat match goal with
         | |- @eq Qc _ _ => apply Qc_is_canon; vm_compute; reflexivity
         | |- _ => reflexivity
         | |- _ => progress f_equal
         end.

Module NumFacts.

Import Num.

Lemma add_comm (a b : num) : add a b = add b a.
Proof. destruct a, b; simpl; try done. by rewrite Qcplus_comm. Qed.

Lemma add_assoc (a b c : num) : add a (add b c) = add (add a b) c.
Proof. destruct a, b, c; simpl; try done. by rewrite Qcplus_assoc. Qed.

Lemma add_zero_l (a : num) : add zero a = a.
Proof. destruct a; simpl; try done. by rewrite Qcplus_0_l. Qed.

Lemma add_zero_r (a : num) : add a zero = a.
Proof. by rewrite add_comm, add_zero_l. Qed.

(** The sum of a list, from the right. *)
Definition total (l : list num) : num := foldr add zero l.

Lemma foldl_add (l : list num) (acc : num) :
  foldl add acc l = add acc (total l).
Proof.
  revert acc. induction l as [|x l IH]; intros acc; simpl.
  - by rewrite add_zero_r.
  - by rewrite IH, add_assoc.
Qed.

Lemma foldl_add_total (l : list num) : foldl add zero l = total l.
Proof. by rewrite foldl_add, add_zero_l. Qed.

Lemma total_Permutation (l1 l2 : list num) : l1 ≡ₚ l2 -> total l1 = total l2.
Proof.
  induction 1 as [|x l1 l2 _ IH|x y l|l1 l2 l3 _ IH1 _ IH2]; simpl.
  - done.
  - by rewrite IH.
  - by rewrite !add_assoc, (add_comm x y).
  - by rewrite IH1.
Qed.

Lemma Qc_gt_sub (x y : Qc) :
  ((x + - y ?= Q2Qc 0) = Gt <-> (x ?= y) = Gt)%Qc.
Proof.
  rewrite <- !Qcgt_alt. split; intros H.
  - apply Qclt_minus_iff. exact H.
  - apply Qclt_minus_iff in H. exact H.
Qed.

(** The sign test of the comparator [(a, b) => a - b] is the order test. *)
Lemma gtb_sub (a b : num) : gtb (sub a b) zero = gtb a b.
Proof.
  destruct a, b; try done. unfold gtb, sub. simpl.
  pose proof (Qc_gt_sub q q0) as H.
  change (Q2Qc (inject_Z 0)) with (Q2Qc 0).
  destruct (q + - q0 ?= Q2Qc 0)%Qc, (q ?= q0)%Qc; try done;
    destruct H as [H1 H2];
    first [ by specialize (H1 eq_refl) | by specialize (H2 eq_refl) ].
Qed.

Lemma cmp_antisym (a b : num) : cmp b a = CompOpp <$> cmp a b.
Proof.
  destruct a, b; simpl; try done. f_equal.
  unfold Qccompare. symmetry. apply Qcompare_antisym.
Qed.

Lemma cmp_Eq (a b : num) : cmp a b = Some Eq -> a = b.
Proof.
  destruct a, b; simpl; try done. intros [= H]. f_equal. by apply Qceq_alt.
Qed.

#[global] Instance le_antisym : AntiSymm eq le.
Proof.
  intros a b. unfold le, leb. rewrite (cmp_antisym a b).
  destruct (cmp a b) as [[]|] eqn:E; simpl; try done.
  intros _ _. by apply cmp_Eq.
Qed.

#[global] Instance le_trans : Transitive le.
Proof.
  intros a b c. unfold le, leb.
  destruct a, b, c; simpl; try done.
  intros H1 H2.
  assert (q <= q0)%Qc as L1 by (apply Qcle_alt; by destruct (q ?= q0)%Qc).
  assert (q0 <= q1)%Qc as L2 by (apply Qcle_alt; by destruct (q0 ?= q1)%Qc).
  pose proof (proj1 (Qcle_alt _ _) (Qcle_trans _ _ _ L1 L2)) as L.
  revert L. by destruct (q ?= q1)%Qc.
Qed.

(** On numbers that are not [NaN] the order is total. *)
Lemma not_gtb_le (a b : num) :
  isNaN a = false -> isNaN b = false -> gtb a b = false -> le a b.
Proof.
  unfold gtb, le, leb. destruct a, b; simpl; try done.
  by destruct (q ?= q0)%Qc.
Qed.

Lemma gtb_le (a b : num) : gtb a b = true -> le b a.
Proof.
  unfold gtb, le, leb. rewrite (cmp_antisym a b).
  by destruct (cmp a b) as [[]|].
Qed.

Lemma le_refl (a : num) : isNaN a = false -> le a a.
Proof.
  unfold le, leb. destruct a; simpl; try done. intros _.
  by rewrite (proj1 (Qceq_alt q q) eq_refl).
Qed.

End NumFacts.

(** ** Facts about the stable sort *)

Section SortFacts.

Import JS.

Context {A : Type} (comparefn : A -> A -> num).

Lemma insert_Permutation (x : A) (l : list A) :
  place comparefn x l ≡ₚ x :: l.
Proof.
  induction l as [|y l IH]; simpl; [done|].
  destruct (follows comparefn x y); [|done].
  rewrite IH. apply Permutation_swap.
Qed.

Lemma sort_Permutation (l : list A) : stable_sort comparefn l ≡ₚ l.
Proof.
  induction l as [|x l IH]; simpl; [done|].
  by rewrite insert_Permutation, IH.
Qed.

Lemma sort_length (l : list A) : length (stable_sort comparefn l) = length l.
Proof. apply Permutation_length, sort_Permutation. Qed.

End SortFacts.

Section NumericSort.

Import JS.

Local Abbreviation by_difference := (fun a b : num => Num.sub a b).

Definition no_NaN (l : list num) : Prop :=
  Forall (fun v => Num.isNaN v = false) l.

Lemma insert_Sorted (x : num) (l : list num) :
  Num.isNaN x = false -> no_NaN l ->
  Sorted Num.le l -> Sorted Num.le (place by_difference x l).
Proof.
  intros Hx Hl Hs. induction l as [|y l IH]; simpl.
  - by repeat constructor.
  - unfold follows. rewrite NumFacts.gtb_sub.
    apply Forall_cons in Hl as [Hy Hl]. apply Sorted_inv in Hs as [Hs Hhd].
    destruct (Num.gtb x y) eqn:E.
    + constructor; [by apply IH|].
      destruct l as [|z l]; simpl.
      * constructor. by apply NumFacts.gtb_le.
      * unfold follows. rewrite NumFacts.gtb_sub.
        destruct (Num.gtb x z); constructor.
        -- by inversion Hhd.
        -- by apply NumFacts.gtb_le.
    + constructor; [by constructor|]. constructor.
      by apply NumFacts.not_gtb_le.
Qed.

Lemma sort_no_NaN (l : list num) :
  no_NaN l -> no_NaN (stable_sort by_difference l).
Proof.
  unfold no_NaN. intros H. by rewrite sort_Permutation.
Qed.

Lemma sort_Sorted (l : list num) :
  no_NaN l -> Sorted Num.le (stable_sort by_difference l).
Proof.
  induction 1 as [|x l Hx Hl IH]; simpl; [constructor|].
  apply insert_Sorted; [done | by apply sort_no_NaN | done].
Qed.

End NumericSort.

(** ** Stability of the stable sort *)

Section SortStability.

Import JS.

Context {A : Type} (comparefn : A -> A -> num).

Lemma insert_sublist (z : A) (l : list A) :
  l `sublist_of` place comparefn z l.
Proof.
  induction l as [|y l IH]; simpl; [apply sublist_nil_l|].
  destruct (follows comparefn z y).
  - by apply sublist_skip.
  - by apply sublist_cons.
Qed.

Lemma insert_before (x y : A) (l : list A) :
  y ∈ l -> follows comparefn x y = false ->
  [x; y] `sublist_of` place comparefn x l.
Proof.
  intros Hy Hxy. induction l as [|w l IH]; [by apply elem_of_nil in Hy|].
  simpl. destruct (follows comparefn x w) eqn:E.
  - apply sublist_cons, IH.
    apply elem_of_cons in Hy as [->|Hy]; [congruence | done].
  - apply sublist_skip. by apply singleton_sublist_l.
Qed.

(** An element is never moved behind a later element that it does not
    have to follow: whatever the comparator, the sort is stable. *)
Lemma sort_keeps_order (x y : A) (l : list A) :
  [x; y] `sublist_of` l -> follows comparefn x y = false ->
  [x; y] `sublist_of` stable_sort comparefn l.
Proof.
  intros Hsub Hxy. induction l as [|z l IH]; [by inversion Hsub|].
  simpl. apply sublist_cons_r in Hsub as [Hsub|(l' & [= <- <-] & Hsub)].
  - etrans; [by apply IH | apply insert_sublist].
  - apply insert_before; [|done].
    rewrite sort_Permutation. by apply singleton_sublist_l.
Qed.

Lemma insert_fmap {B : Type} (f : B -> A) (x : B) (l : list B) :
  f <$> place (fun a b => comparefn (f a) (f b)) x l
  = place comparefn (f x) (f <$> l).
Proof.
  induction l as [|y l IH]; simpl; [done|].
  unfold follows. destruct (Num.gtb _ _); [|done].
  rewrite fmap_cons. f_equal. exact IH.
Qed.

Lemma sort_fmap {B : Type} (f : B -> A) (l : list B) :
  f <$> stable_sort (fun a b => comparefn (f a) (f b)) l
  = stable_sort comparefn (f <$> l).
Proof.
  induction l as [|x l IH]; simpl; [done|]. by rewrite insert_fmap, IH.
Qed.

End SortStability.

Section SortPositions.

Import JS.

Context {A : Type} (comparefn : A -> A -> num).

(** The elements of a list with their positions, counted from [start]. *)
Fixpoint tag (start : nat) (l : list A) : list (nat * A) :=
  match l with
  | [] => []
  | x :: l' => (start, x) :: tag (S start) l'
  end.

Lemma tag_fst (start : nat) (l : list A) :
  (tag start l).*1 = seq start (length l).
Proof.
  revert start. induction l as [|x l IH]; intros start; simpl; [done|].
  by rewrite IH.
Qed.

Lemma tag_snd (start : nat) (l : list A) : (tag start l).*2 = l.
Proof.
  revert start. induction l as [|x l IH]; intros start; simpl; [done|].
  by rewrite IH.
Qed.

Lemma tag_lookup (start : nat) (l : list A) (i : nat) (a : A) :
  (start + i, a) ∈ tag start l <-> l !! i = Some a.
Proof.
  revert start i. induction l as [|x l IH]; intros start i; simpl.
  - split; [by intros ?%elem_of_nil | done].
  - rewrite elem_of_cons. destruct i as [|i]; simpl.
    + split.
      * intros [[= ? ->]|Hin]; [done|].
        exfalso. apply (list_elem_of_fmap_2 fst) in Hin.
        rewrite tag_fst, elem_of_seq in Hin. simpl in Hin. lia.
      * intros [= ->]. left. f_equal. lia.
    + rewrite <- IH. replace (start + S i)%nat with (S start + i)%nat by lia.
      split; [|by right]. intros [[= ? _]|Hin]; [lia | done].
Qed.

Lemma tag_in (start : nat) (l : list A) (p : nat * A) :
  p ∈ tag start l -> l !! (p.1 - start)%nat = Some p.2 /\ (start <= p.1)%nat.
Proof.
  revert start. induction l as [|x l IH]; intros start; simpl.
  - by intros ?%elem_of_nil.
  - intros [->|Hin]%elem_of_cons; simpl.
    + by rewrite Nat.sub_diag.
    + destruct (IH _ Hin) as [Hl Hle]. split; [|lia].
      replace (p.1 - start)%nat with (S (p.1 - S start)) by lia. done.
Qed.

Lemma tag_sublist (start : nat) (l : list A) (i j : nat) (a b : A) :
  (i < j)%nat -> l !! i = Some a -> l !! j = Some b ->
  [(start + i, a)%nat; (start + j, b)%nat] `sublist_of` tag start l.
Proof.
  revert start i j. induction l as [|x l IH]; intros start i j Hij Hi Hj;
    [done|].
  simpl. destruct i as [|i].
  - simpl in Hi. injection Hi as ->. rewrite Nat.add_0_r.
    apply sublist_skip, singleton_sublist_l.
    destruct j as [|j]; [lia|]. simpl in Hj.
    replace (start + S j)%nat with (S start + j)%nat by lia.
    by apply tag_lookup.
  - destruct j as [|j]; [lia|]. simpl in Hi, Hj.
    apply sublist_cons.
    replace (start + S i)%nat with (S start + i)%nat by lia.
    replace (start + S j)%nat with (S start + j)%nat by lia.
    apply IH; [lia | done | done].
Qed.

(** The stable sort as a rearrangement of positions: [sort l] lists the
    elements of [l] at the positions [π], a permutation of all positions
    that keeps [i] before [j] whenever [i < j] and the element at [i] does
    not have to follow the element at [j]. *)
Lemma sort_stable_positions (l : list A) :
  exists π : list nat,
    π ≡ₚ seq 0 (length l)
    /\ Forall2 (fun x i => l !! i = Some x) (stable_sort comparefn l) π
    /\ forall i j a b,
         (i < j)%nat -> l !! i = Some a -> l !! j = Some b ->
         follows comparefn a b = false -> [i; j] `sublist_of` π.
Proof.
  set (cmp2 := fun p q : nat * A => comparefn p.2 q.2).
  exists (stable_sort cmp2 (tag 0 l)).*1. split; [|split].
  - rewrite sort_Permutation. by rewrite tag_fst.
  - replace (stable_sort comparefn l) with ((stable_sort cmp2 (tag 0 l)).*2)
      by (unfold cmp2; rewrite (sort_fmap comparefn snd); by rewrite tag_snd).
    apply Forall2_fmap, Forall_Forall2_diag, Forall_forall.
    intros p Hp. rewrite sort_Permutation in Hp.
    apply tag_in in Hp as [Hp _]. by rewrite Nat.sub_0_r in Hp.
  - intros i j a b Hij Hi Hj Hab.
    change [i; j] with ([(i, a); (j, b)].*1).
    apply fmap_sublist. apply sort_keeps_order; [|done].
    by apply (tag_sublist 0).
Qed.

End SortPositions.

(** ** The order of numbers read from a difference *)

Module OrderFacts.

Import Num JS.

Lemma Qc_lt_sub (x y : Qc) :
  ((x + - y ?= Q2Qc 0) = Lt <-> (x ?= y) = Lt)%Qc.
Proof.
  rewrite <- !Qclt_alt. split; intros H.
  - apply (Qcplus_lt_mono_r _ _ (- y)%Qc). by rewrite Qcplus_opp_r.
  - apply (Qcplus_lt_mono_r _ _ (- y)%Qc) in H. by rewrite Qcplus_opp_r in H.
Qed.

Lemma ltb_sub (a b : num) : ltb (sub a b) zero = ltb a b.
Proof.
  destruct a, b; try done. unfold ltb, sub. simpl.
  pose proof (Qc_lt_sub q q0) as H.
  change (Q2Qc (inject_Z 0)) with (Q2Qc 0).
  destruct (q + - q0 ?= Q2Qc 0)%Qc, (q ?= q0)%Qc; try done;
    destruct H as [H1 H2];
    first [ by specialize (H1 eq_refl) | by specialize (H2 eq_refl) ].
Qed.

(** The sign of a difference of two numbers is their comparison. *)
Lemma sign_sub (a b : num) :
  isNaN a = false -> isNaN b = false -> cmp a b = Some (sign (sub a b)).
Proof.
  intros Ha Hb. unfold sign. rewrite NumFacts.gtb_sub, ltb_sub.
  unfold gtb, ltb. destruct (cmp a b) as [[]|] eqn:E; try done.
  by destruct a, b.
Qed.

Lemma cmp_refl (a : num) (c : comparison) : cmp a a = Some c -> c = Eq.
Proof.
  destruct a; simpl; try done; intros [= <-]; try done.
  by apply Qceq_alt.
Qed.

Lemma cmp_Lt_trans (a b c : num) :
  cmp a b = Some Lt -> cmp b c = Some Lt -> cmp a c = Some Lt.
Proof.
  destruct a, b, c; simpl; try done. intros H1 H2. f_equal.
  assert ((q ?= q0)%Qc = Lt) as L1 by congruence.
  assert ((q0 ?= q1)%Qc = Lt) as L2 by congruence.
  apply Qclt_alt. apply Qclt_alt in L1, L2. by apply (Qclt_trans _ q0).
Qed.

Lemma cmp_Gt_trans (a b c : num) :
  cmp a b = Some Gt -> cmp b c = Some Gt -> cmp a c = Some Gt.
Proof.
  intros H1 H2.
  rewrite (NumFacts.cmp_antisym c a).
  rewrite (cmp_Lt_trans c b a); [done| |].
  - rewrite (NumFacts.cmp_antisym b c), H2. done.
  - rewrite (NumFacts.cmp_antisym a b), H1. done.
Qed.

End OrderFacts.

(** ** The array sort *)

Section ArraySort.

Import JS.

Context {A : Type}.
Variable arrangement : (A -> A -> num) -> list A -> list nat.
Variable comparefn : A -> A -> num.

(** On a consistent comparator the sort is the stable one. *)
Lemma Array_sort_consistent (l : list A) :
  consistent_on comparefn l = true ->
  Array_sort arrangement comparefn l = stable_sort comparefn l.
Proof. intros H. unfold Array_sort. by rewrite H. Qed.

Lemma distinct_NoDup (positions : list nat) :
  distinct positions = true -> NoDup positions.
Proof.
  induction positions as [|i rest IH]; cbn [distinct]; [constructor|].
  intros [Hi Hrest]%andb_true_iff. constructor; [|by apply IH].
  intros Hin. apply negb_true_iff in Hi.
  assert (existsb (Nat.eqb i) rest = true); [|congruence].
  apply existsb_exists. exists i.
  split; [by apply list_elem_of_In | apply Nat.eqb_refl].
Qed.

Lemma omap_lookup_seq (k l : list A) :
  omap (fun i => (k ++ l) !! i) (seq (length k) (length l)) = l.
Proof.
  revert k. induction l as [|x l IH]; intros k; [done|].
  cbn [length seq].
  change (omap ?f (?i :: ?rest))
    with (match f i with Some y => y :: omap f rest | None => omap f rest end).
  cbv beta. rewrite list_lookup_middle by done.
  f_equal. specialize (IH (k ++ [x])).
  rewrite length_app, Nat.add_1_r, <- app_assoc in IH. exact IH.
Qed.

Lemma mapM_omap {B C : Type} (f : B -> option C) (l : list B) (k : list C) :
  mapM f l = Some k -> omap f l = k.
Proof.
  intros H%mapM_Some_1. induction H as [|x y l k Hx _ IH]; [done|].
  change (omap f (x :: l))
    with (match f x with Some y => y :: omap f l | None => omap f l end).
  by rewrite Hx, IH.
Qed.

(** A rearrangement holds the elements of the array. *)
Lemma rearrange_Permutation (positions : list nat) (l l' : list A) :
  rearrange positions l = Some l' -> l' ≡ₚ l.
Proof.
  unfold rearrange.
  destruct (distinct positions) eqn:Hd; [|done].
  destruct (Nat.eqb_spec (length positions) (length l)) as [Hlen|]; [|done].
  cbn [andb]. intros Hm.
  assert (positions ≡ₚ seq 0 (length l)) as Hperm.
  { apply submseteq_length_Permutation; [|by rewrite length_seq, Hlen].
    apply NoDup_submseteq; [by apply distinct_NoDup|].
    intros i Hi. apply elem_of_seq. split; [lia|]. cbn.
    apply mapM_Some_1 in Hm.
    apply list_elem_of_lookup in Hi as [j Hj].
    destruct (Forall2_lookup_l _ _ _ _ _ Hm Hj) as (y & _ & Hy).
    by apply lookup_lt_Some in Hy. }
  rewrite <- (mapM_omap _ _ _ Hm), Hperm.
  pose proof (omap_lookup_seq [] l) as Hl. cbn [app length] in Hl.
  by rewrite Hl.
Qed.

(** Whatever the comparator and the engine, the sort returns the elements
    of the array. *)
Lemma Array_sort_Permutation (l : list A) :
  Array_sort arrangement comparefn l ≡ₚ l.
Proof.
  unfold Array_sort. destruct (consistent_on comparefn l).
  - apply sort_Permutation.
  - destruct (rearrange _ l) as [l'|] eqn:E; cbn [default].
    + by apply rearrange_Permutation in E.
    + apply sort_Permutation.
Qed.

Lemma consistent_on_intro (l : list A) :
  (forall a b c, a ∈ l -> b ∈ l -> c ∈ l ->
                 consistent_at comparefn a b c = true) ->
  consistent_on comparefn l = true.
Proof.
  intros H. unfold consistent_on.
  apply forallb_forall. intros a Ha%list_elem_of_In.
  apply forallb_forall. intros b Hb%list_elem_of_In.
  apply forallb_forall. intros c Hc%list_elem_of_In. by apply H.
Qed.

(** A comparator that ties every pair is consistent. *)
Lemma consistent_tied (l : list A) :
  (forall a b, order comparefn a b = Eq) -> consistent_on comparefn l = true.
Proof.
  intros H. apply consistent_on_intro. intros a b c _ _ _.
  unfold consistent_at. by rewrite !H.
Qed.

(** A comparator whose sign is the comparison of keys that are numbers
    other than [NaN] is consistent. *)
Lemma consistent_by_key (key : A -> num) (l : list A) :
  (forall a b, a ∈ l -> b ∈ l ->
               Num.cmp (key a) (key b) = Some (order comparefn a b)) ->
  consistent_on comparefn l = true.
Proof.
  intros H. apply consistent_on_intro. intros a b c Ha Hb Hc.
  pose proof (H a a Ha Ha) as Haa. pose proof (H a b Ha Hb) as Hab.
  pose proof (H b a Hb Ha) as Hba. pose proof (H b c Hb Hc) as Hbc.
  pose proof (H a c Ha Hc) as Hac.
  unfold consistent_at.
  rewrite (OrderFacts.cmp_refl _ _ Haa). cbn [is_sign andb].
  destruct (order comparefn a b) eqn:Eab.
  - pose proof (NumFacts.cmp_Eq _ _ Hab) as Ekey.
    rewrite Ekey in Hba. rewrite (OrderFacts.cmp_refl _ _ Hba).
    cbn [is_sign andb implb].
    destruct (order comparefn b c) eqn:Ebc; cbn [is_sign andb implb];
      try done.
    rewrite Ekey, Hbc in Hac. injection Hac as <-. done.
  - cbn [is_sign andb implb].
    destruct (order comparefn b c) eqn:Ebc; cbn [is_sign andb implb];
      try done.
    rewrite (OrderFacts.cmp_Lt_trans _ _ _ Hab Hbc) in Hac.
    injection Hac as <-. done.
  - cbn [is_sign andb implb].
    destruct (order comparefn b c) eqn:Ebc; cbn [is_sign andb implb];
      try done.
    rewrite (OrderFacts.cmp_Gt_trans _ _ _ Hab Hbc) in Hac.
    injection Hac as <-. done.
Qed.

(** So is a comparator whose sign is the comparison of the keys the other
    way round. *)
Lemma consistent_by_key_desc (key : A -> num) (l : list A) :
  (forall a b, a ∈ l -> b ∈ l ->
               Num.cmp (key b) (key a) = Some (order comparefn a b)) ->
  consistent_on comparefn l = true.
Proof.
  intros H. apply consistent_on_intro. intros a b c Ha Hb Hc.
  pose proof (H a a Ha Ha) as Haa. pose proof (H a b Ha Hb) as Hab.
  pose proof (H b a Hb Ha) as Hba. pose proof (H b c Hb Hc) as Hbc.
  pose proof (H a c Ha Hc) as Hac.
  unfold consistent_at.
  rewrite (OrderFacts.cmp_refl _ _ Haa). cbn [is_sign andb].
  destruct (order comparefn a b) eqn:Eab.
  - pose proof (NumFacts.cmp_Eq _ _ Hab) as Ekey.
    rewrite Ekey in Hba. rewrite (OrderFacts.cmp_refl _ _ Hba).
    cbn [is_sign andb implb].
    destruct (order comparefn b c) eqn:Ebc; cbn [is_sign andb implb];
      try done.
    rewrite <- Ekey, Hbc in Hac. injection Hac as <-. done.
  - cbn [is_sign andb implb].
    destruct (order comparefn b c) eqn:Ebc; cbn [is_sign andb implb];
      try done.
    rewrite (OrderFacts.cmp_Lt_trans _ _ _ Hbc Hab) in Hac.
    injection Hac as <-. done.
  - cbn [is_sign andb implb].
    destruct (order comparefn b c) eqn:Ebc; cbn [is_sign andb implb];
      try done.
    rewrite (OrderFacts.cmp_Gt_trans _ _ _ Hbc Hab) in Hac.
    injection Hac as <-. done.
Qed.

End ArraySort.

(** ** Splitting, joining and trimming *)

Module CsvFacts.

Import Str StrFacts.

Local Open Scope string_scope.

Lemma tight_trimEnd (s : string) : tight s -> trimEnd s = s.
Proof.
  unfold tight, trim. intros H. rewrite <- H at 1. rewrite trimEnd_idemp.
  exact H.
Qed.

Lemma tight_head (c : ascii) (s : string) :
  tight (String c s) -> is_ws c = false.
Proof.
  unfold tight, trim. intros H.
  pose proof (trimStart_head (String c s)) as Hh.
  destruct (trimStart (String c s)) as [|d u] eqn:E; [by simpl in H|].
  destruct (trimEnd_head d u Hh) as [t Ht]. rewrite Ht in H.
  by injection H as <- _.
Qed.

Lemma tight_intro (s : string) :
  match s with EmptyString => True | String c _ => is_ws c = false end ->
  trimEnd s = s -> tight s.
Proof.
  intros Hh He. unfold tight, trim. destruct s as [|c s]; [done|].
  by rewrite trimStart_id.
Qed.

Lemma app_cons (c : ascii) (a b : string) :
  String c a ++ b = String c (a ++ b).
Proof. reflexivity. Qed.

Lemma app_nil (b : string) : "" ++ b = b.
Proof. reflexivity. Qed.

Lemma trimEnd_app (a b : string) :
  trimEnd b <> "" -> trimEnd (a ++ b) = a ++ trimEnd b.
Proof.
  intros Hb. induction a as [|c a IH]; [done|].
  rewrite !app_cons. cbn [trimEnd].
  rewrite IH. destruct (a ++ trimEnd b) as [|d u] eqn:E; [|done].
  destruct a; [by rewrite app_nil in E | by rewrite app_cons in E].
Qed.

Lemma trimEnd_cons_nonws (c : ascii) (s : string) :
  is_ws c = false -> trimEnd s = s -> trimEnd (String c s) = String c s.
Proof. intros Hc Hs. simpl. rewrite Hs. destruct s; by rewrite ?Hc. Qed.

(** Joining tight strings with a separator that is not white space gives a
    tight string. *)
Lemma join_tight (sep : ascii) (l : list string) :
  is_ws sep = false -> Forall tight l -> tight (join (String sep "") l).
Proof.
  intros Hsep. induction 1 as [|x l Hx Hl IH]; [done|].
  destruct l as [|y l]; [exact Hx|].
  change (join (String sep "") (x :: y :: l))
    with (x ++ String sep (join (String sep "") (y :: l))).
  assert (trimEnd (String sep (join (String sep "") (y :: l)))
          = String sep (join (String sep "") (y :: l))) as He
    by (apply trimEnd_cons_nonws; [done | by apply tight_trimEnd]).
  apply tight_intro.
  - destruct x as [|c x]; simpl; [done | by apply tight_head in Hx].
  - rewrite trimEnd_app; rewrite He; done.
Qed.

Lemma trimEnd_cons_nonempty (c : ascii) (s : string) :
  s <> "" -> trimEnd s = s -> trimEnd (String c s) = String c s.
Proof. intros Hne Hs. cbn [trimEnd]. rewrite Hs. by destruct s. Qed.

Lemma join_nonempty (sep : ascii) (l : list string) :
  (forall x, last l = Some x -> x <> "") -> l <> [] ->
  join (String sep "") l <> "".
Proof.
  intros Hlast Hne. destruct l as [|x [|y l]]; [done | by apply Hlast |].
  change (join (String sep "") (x :: y :: l))
    with (x ++ String sep (join (String sep "") (y :: l))).
  by destruct x.
Qed.

(** Joining tight lines with any separator: the text is tight when its
    first and its last line are not empty. *)
Lemma join_lines_tight (sep : ascii) (lines : list string) :
  Forall tight lines ->
  (forall x, head lines = Some x -> x <> "") ->
  (forall x, last lines = Some x -> x <> "") ->
  tight (join (String sep "") lines).
Proof.
  intros Hall Hhead Hlast. apply tight_intro.
  - destruct lines as [|x l]; [done|].
    apply Forall_cons in Hall as [Hx _].
    specialize (Hhead x eq_refl).
    destruct x as [|c x]; [done|]. apply tight_head in Hx.
    by destruct l.
  - clear Hhead. induction Hall as [|x l Hx Hl IH]; [done|].
    destruct l as [|y l]; [by apply tight_trimEnd|].
    change (join (String sep "") (x :: y :: l))
      with (x ++ String sep (join (String sep "") (y :: l))).
    assert (trimEnd (String sep (join (String sep "") (y :: l)))
            = String sep (join (String sep "") (y :: l))) as He.
    { apply trimEnd_cons_nonempty; [by apply join_nonempty|].
      by apply IH. }
    rewrite trimEnd_app; by rewrite He.
Qed.

Lemma remove_char_id (c : ascii) (s : string) :
  has_char c s = false -> remove_char c s = s.
Proof.
  induction s as [|d s IH]; simpl; [done|].
  intros [Hd Hs]%orb_false_elim. by rewrite Hd, IH.
Qed.

Lemma split_no_sep (sep : ascii) (s : string) :
  has_char sep s = false -> split sep s = [s].
Proof.
  induction s as [|d s IH]; simpl; [done|].
  intros [Hd Hs]%orb_false_elim. by rewrite Hd, IH.
Qed.

Lemma split_app (sep : ascii) (a b : string) :
  has_char sep a = false ->
  split sep (a ++ String sep b) = a :: split sep b.
Proof.
  induction a as [|d a IH]; intros Ha.
  - rewrite app_nil. cbn [split]. by rewrite Ascii.eqb_refl.
  - simpl in Ha. apply orb_false_elim in Ha as [Hd Ha].
    rewrite app_cons. cbn [split]. by rewrite Hd, IH.
Qed.

(** Splitting a joined list gives the list back when no element contains
    the separator and the list is not empty. *)
Lemma split_join (sep : ascii) (l : list string) :
  l <> [] -> Forall (fun s => has_char sep s = false) l ->
  split sep (join (String sep "") l) = l.
Proof.
  intros Hne Hall. induction Hall as [|x l Hx Hl IH]; [done|].
  destruct l as [|y l]; [by apply split_no_sep|].
  change (join (String sep "") (x :: y :: l))
    with (x ++ String sep (join (String sep "") (y :: l))).
  rewrite split_app by done. by rewrite IH.
Qed.

End CsvFacts.

(** ** Grouping *)

Section GroupProperties.

Import JS DataProcessor.

Variable df : DataFile.

(** The rows of [rows] filed under key [k]. *)
Definition members (fieldName k : string) (rows : list row) : list row :=
  List.filter (fun r => String.eqb (group_key fieldName r) k) rows.

Lemma members_snoc (fieldName k : string) (rows : list row) (r : row) :
  members fieldName k (rows ++ [r])
  = if decide (group_key fieldName r = k)
    then members fieldName k rows ++ [r]
    else members fieldName k rows.
Proof.
  unfold members. rewrite List.filter_app. simpl.
  destruct (String.eqb_spec (group_key fieldName r) k); case_decide;
    try done. by rewrite app_nil_r.
Qed.

(** Some row has a key that names a member of Object.prototype. *)
Definition inherited_key (fieldName : string) (rows : list row) : bool :=
  existsb (fun r => inherited (group_key fieldName r)) rows.

(** The groups of rows of which no key is inherited: every row joins the
    group of its key, a new one when the key has none. *)
Definition grouping (fieldName : string) (rows : list row)
  : gmap string (list row) :=
  foldl (fun (groups : gmap string (list row)) r =>
           let key := group_key fieldName r in
           let groups' :=
             match groups !! key with
             | None => <[key := []]> groups
             | Some _ => groups
             end in
           alter (fun g => (g ++ [r])%list) key groups')
        ∅ rows.

(** [grouping] files every row under its key, in the order of the rows,
    and creates no empty group. *)
Lemma grouping_lookup (fieldName k : string) (rows : list row) :
  grouping fieldName rows !! k
  = match members fieldName k rows with
    | [] => None
    | g => Some g
    end.
Proof.
  unfold grouping.
  induction rows as [|r rows IH] using rev_ind; [done|].
  rewrite foldl_app, members_snoc. simpl.
  set (groups := foldl _ ∅ rows) in *.
  destruct (decide (group_key fieldName r = k)) as [Hk|Hne].
  - rewrite Hk, IH. destruct (members fieldName k rows).
    + by rewrite lookup_alter_eq, lookup_insert_eq.
    + by rewrite lookup_alter_eq, IH.
  - transitivity (groups !! k); [|by rewrite IH].
    rewrite lookup_alter_ne by done.
    destruct (groups !! group_key fieldName r); [done|].
    by rewrite lookup_insert_ne.
Qed.

Lemma grouping_snoc (fieldName : string) (rows : list row) (r : row) :
  grouping fieldName (rows ++ [r])
  = let key := group_key fieldName r in
    match grouping fieldName rows !! key with
    | Some g => <[key := (g ++ [r])%list]> (grouping fieldName rows)
    | None => <[key := [r]]> (grouping fieldName rows)
    end.
Proof.
  unfold grouping at 1. rewrite foldl_app. cbn [foldl].
  fold (grouping fieldName rows). cbv zeta.
  destruct (grouping fieldName rows !! group_key fieldName r) as [g|] eqn:E.
  - by rewrite (alter_alt_Some _ _ _ _ E).
  - by rewrite alter_insert_eq.
Qed.

Lemma inherited_key_spec (fieldName : string) (rows : list row) :
  inherited_key fieldName rows = true
  <-> exists r, r ∈ rows /\ inherited (group_key fieldName r) = true.
Proof.
  unfold inherited_key. rewrite existsb_exists.
  split; intros (r & Hr & Hk); exists r; by rewrite list_elem_of_In in *.
Qed.

Lemma inherited_key_false (fieldName : string) (rows : list row) :
  inherited_key fieldName rows = false
  <-> Forall (fun r => inherited (group_key fieldName r) = false) rows.
Proof.
  unfold inherited_key. induction rows as [|r rows IH]; cbn [existsb].
  - split; [constructor | done].
  - rewrite orb_false_iff, Forall_cons, IH. done.
Qed.

(** A key that no row has owns no group. *)
Lemma grouping_no_member (fieldName k : string) (rows : list row) :
  Forall (fun r => group_key fieldName r <> k) rows ->
  grouping fieldName rows !! k = None.
Proof.
  intros H. rewrite grouping_lookup.
  replace (members fieldName k rows) with (@nil row); [done|].
  symmetry. unfold members. induction H as [|r rows Hr _ IH]; [done|].
  cbn [List.filter]. by destruct (String.eqb_spec (group_key fieldName r) k).
Qed.

(** The three cases of one turn of the loop. *)
Lemma file_row_own (fieldName : string) (groups : gmap string (list row))
    (r : row) (g : list row) :
  groups !! group_key fieldName r = Some g ->
  file_row fieldName groups r
  = Some (<[group_key fieldName r := g ++ [r]]> groups).
Proof. intros E. unfold file_row, read. cbv zeta. by rewrite E, E. Qed.

Lemma file_row_absent (fieldName : string) (groups : gmap string (list row))
    (r : row) :
  groups !! group_key fieldName r = None ->
  inherited (group_key fieldName r) = false ->
  file_row fieldName groups r = Some (<[group_key fieldName r := [r]]> groups).
Proof.
  intros E Hk. unfold file_row, read. cbv zeta.
  rewrite E, Hk, lookup_insert_eq. by rewrite insert_insert_eq.
Qed.

Lemma file_row_inherited (fieldName : string)
    (groups : gmap string (list row)) (r : row) :
  groups !! group_key fieldName r = None ->
  inherited (group_key fieldName r) = true ->
  file_row fieldName groups r = None.
Proof.
  intros E Hk. unfold file_row, read. cbv zeta. rewrite E, Hk. cbv iota.
  by rewrite E.
Qed.

(** [groupBy] throws exactly when the key of some row names an inherited
    member, and otherwise returns the groups of the rows. *)
Lemma groupBy_unfold (fieldName : string) :
  groupBy df fieldName
  = if inherited_key fieldName (data df) then None
    else Some (grouping fieldName (data df)).
Proof.
  unfold groupBy.
  induction (data df) as [|r rows IH] using rev_ind; [done|].
  rewrite foldl_app, IH. cbn [foldl]. unfold inherited_key in *.
  rewrite existsb_app. cbn [existsb]. rewrite orb_false_r.
  destruct (existsb _ rows) eqn:Erows; [done|]. cbn [orb].
  rewrite grouping_snoc. cbv zeta.
  destruct (inherited (group_key fieldName r)) eqn:Hk.
  - apply file_row_inherited; [|done]. apply grouping_no_member.
    apply inherited_key_false in Erows.
    eapply Forall_impl; [exact Erows|]. cbv beta. intros r' Hr' E.
    congruence.
  - destruct (grouping fieldName rows !! group_key fieldName r) as [g|] eqn:E.
    + by apply file_row_own.
    + by apply file_row_absent.
Qed.

Lemma groupBy_None (fieldName : string) :
  groupBy df fieldName = None
  <-> exists r, r ∈ data df /\ inherited (group_key fieldName r) = true.
Proof.
  rewrite groupBy_unfold, <- inherited_key_spec.
  by destruct (inherited_key fieldName (data df)).
Qed.

Lemma groupBy_Some (fieldName : string) (groups : gmap string (list row)) :
  groupBy df fieldName = Some groups
  <-> Forall (fun r => inherited (group_key fieldName r) = false) (data df)
      /\ groups = grouping fieldName (data df).
Proof.
  rewrite groupBy_unfold, <- inherited_key_false.
  destruct (inherited_key fieldName (data df)).
  - split; [done | by intros [? _]].
  - split; [by intros [= <-] | by intros [_ ->]].
Qed.

(** When [groupBy] returns, every row is filed under its key, in the order
    of the rows, and no group is empty. *)
Lemma groupBy_lookup (fieldName k : string)
    (groups : gmap string (list row)) :
  groupBy df fieldName = Some groups ->
  groups !! k
  = match members fieldName k (data df) with
    | [] => None
    | g => Some g
    end.
Proof. intros [_ ->]%groupBy_Some. apply grouping_lookup. Qed.

(** Each row lies in the group of its key and in no other; the key is the
    string form of the cell when the cell is truthy, and ["Unknown"]
    when it is falsy. *)
Lemma groupBy_partition (fieldName : string)
    (groups : gmap string (list row)) (r : row) :
  groupBy df fieldName = Some groups ->
  r ∈ data df ->
  (exists g, groups !! group_key fieldName r = Some g /\ r ∈ g)
  /\ (forall k g, groups !! k = Some g -> r ∈ g ->
        k = group_key fieldName r)
  /\ group_key fieldName r
     = if truthy (get r fieldName) then ToString (get r fieldName)
       else "Unknown".
Proof.
  intros Hgroups Hr. split; [|split].
  - rewrite (groupBy_lookup _ _ _ Hgroups).
    assert (r ∈ members fieldName (group_key fieldName r) (data df)) as Hin.
    { apply list_elem_of_In, filter_In. split; [by apply list_elem_of_In|].
      apply String.eqb_refl. }
    destruct (members _ _ _) as [|x g] eqn:E; [by apply elem_of_nil in Hin|].
    eauto.
  - intros k g. rewrite (groupBy_lookup _ _ _ Hgroups).
    destruct (members fieldName k (data df)) as [|x g'] eqn:E; [done|].
    intros [= <-]. rewrite <- E. intros Hin.
    apply list_elem_of_In, filter_In in Hin as [_ Hk].
    symmetry. by apply String.eqb_eq.
  - unfold group_key, or_else. by destruct (truthy (get r fieldName)).
Qed.

Lemma foldl_insert_lookup {V : Type} (f : string -> V) (keys : list string)
    (acc : gmap string V) (k : string) :
  foldl (fun (result : gmap string V) key => <[key := f key]> result) acc keys
    !! k
  = if decide (k ∈ keys) then Some (f k) else acc !! k.
Proof.
  revert acc. induction keys as [|x keys IH]; intros acc; simpl.
  - done.
  - rewrite IH. destruct (decide (k ∈ keys)) as [Hin|Hnin].
    + rewrite decide_True; [done | by right].
    + destruct (decide (k = x)) as [->|Hne].
      * rewrite decide_True by left. by rewrite lookup_insert_eq.
      * rewrite decide_False, lookup_insert_ne; [done | done |].
        intros [?|?]%elem_of_cons; done.
Qed.

(** [aggregate] throws when [groupBy] does, and otherwise reduces each
    group on its own. *)
Lemma aggregate_fmap (groupField valueField : string) (operation : Operation) :
  aggregate df groupField valueField operation
  = (fun groups : gmap string (list row) =>
       aggregate_group valueField operation <$> groups)
    <$> groupBy df groupField.
Proof.
  unfold aggregate. destruct (groupBy df groupField) as [groups|]; [|done].
  cbn [fmap option_fmap option_map]. f_equal.
  apply map_eq. intros k.
  rewrite (foldl_insert_lookup
             (fun key => aggregate_group valueField operation
                           (default [] (groups !! key)))).
  rewrite lookup_fmap. unfold Object_keys.
  destruct (groups !! k) as [g|] eqn:E; simpl.
  - rewrite decide_True; [done|].
    apply list_elem_of_fmap. exists (k, g). split; [done|].
    by apply elem_of_map_to_list.
  - rewrite decide_False; [done|].
    intros ((k' & g) & -> & Hin)%list_elem_of_fmap.
    apply elem_of_map_to_list in Hin. simpl in E. congruence.
Qed.

End GroupProperties.

(** ** Grouping: the key of a falsy cell *)

Section GroupByZero.

Import JS DataProcessor.

(** A data file as the JSON text [[{"a": 0}]] gives it. *)
Definition zero_cell_file : DataFile :=
  {| data := [ {[ "a" := VNum (Num.of_Z 0) ]} ];
     fields := [ {| name := "a"; type := TNumber |} ] |}.

(** C1: on the row [{a: 0}] the cell at [a] is not missing and its string
    form is ["0"], yet [groupBy('a')] files the row under ["Unknown"]: the
    test [row[fieldName] || 'Unknown'] takes every falsy cell (0, NaN,
    false) for a missing one. *)
Theorem groupBy_zero_cell_is_Unknown :
  Forall (fun r => is_missing (get r "a") = false
                   /\ ToString (get r "a") = "0")
         (data zero_cell_file)
  /\ groupBy zero_cell_file "a" = Some {[ "Unknown" := data zero_cell_file ]}.
Proof. split; [repeat constructor | by_evaluation]. Qed.

End GroupByZero.

(** ** The CSV round trip *)

Section RoundTrip.

Import JS DataProcessor FileUpload Str StrFacts CsvFacts.

Variable JSON_stringify : list row -> string.

(** A plain string: no comma, no double quote, no newline, and no white
    space at either end. *)
Definition plain (s : string) : bool :=
  negb (has_char comma s) && negb (has_char dquote s)
  && negb (has_char newline s) && String.eqb (trim s) s.

Definition plain_cell (v : scalar) : bool :=
  match v with VStr s => plain s | _ => false end.

(** The rows the round trip is stated for: all rows have the same keys,
    every key is a non-empty plain string, every cell is a plain string,
    and the last row has a cell that is not empty. *)
Definition plain_table (rows : list row) : Prop :=
  (forall r1 r2 : row, r1 ∈ rows -> r2 ∈ rows -> dom r1 = dom r2)
  /\ Forall (map_Forall (fun (k : string) (v : scalar) =>
                           k <> "" /\ plain k = true /\ plain_cell v = true))
            rows
  /\ (forall r : row, last rows = Some r ->
        exists k s, r !! k = Some (VStr s) /\ s <> "").

Lemma plain_spec (s : string) :
  plain s = true ->
  has_char comma s = false /\ has_char dquote s = false
  /\ has_char newline s = false /\ tight s.
Proof.
  unfold plain, tight. rewrite !andb_true_iff, !negb_true_iff.
  intros [[[? ?] ?] ?%String.eqb_eq]. done.
Qed.

Lemma clean_token_plain (s : string) : plain s = true -> clean_token s = s.
Proof.
  intros (_ & Hq & _ & Ht)%plain_spec. unfold clean_token.
  rewrite Ht. by apply remove_char_id.
Qed.

Lemma has_char_join (c sep : ascii) (l : list string) :
  Ascii.eqb sep c = false ->
  Forall (fun s => has_char c s = false) l ->
  has_char c (join (String sep "") l) = false.
Proof.
  intros Hc. induction 1 as [|x l Hx Hl IH]; [done|].
  destruct l as [|y l]; [done|].
  change (join (String sep "") (x :: y :: l))
    with (x ++ String sep (join (String sep "") (y :: l)))%string.
  clear Hl. induction x as [|d x IHx].
  - rewrite app_nil. cbn [has_char]. by rewrite Hc, IH.
  - simpl in Hx. apply orb_false_elim in Hx as [Hd Hx].
    rewrite app_cons. cbn [has_char]. by rewrite Hd, IHx.
Qed.

Lemma join_has_nonempty (sep : ascii) (l : list string) (x : string) :
  x ∈ l -> x <> "" -> join (String sep "") l <> "".
Proof.
  intros Hin Hx. destruct l as [|y [|z l]].
  - by apply elem_of_nil in Hin.
  - by apply list_elem_of_singleton in Hin as <-.
  - change (join (String sep "") (y :: z :: l))
      with (y ++ String sep (join (String sep "") (z :: l)))%string.
    by destruct y.
Qed.

Lemma fill_row_map (f : string -> string) (keys pre : list string) (acc : row) :
  fill_row keys (length pre) (pre ++ (f <$> keys)) acc
  = foldl (fun (a : row) k => <[k := VStr (f k)]> a) acc keys.
Proof.
  revert pre acc. induction keys as [|h keys IH]; intros pre acc; [done|].
  cbn [fill_row foldl fmap list_fmap].
  rewrite lookup_app_r, Nat.sub_diag by lia. cbn [lookup list_lookup default].
  specialize (IH (pre ++ [f h]) (<[h := VStr (f h)]> acc)).
  rewrite length_app, Nat.add_1_r, <- app_assoc in IH. exact IH.
Qed.

Lemma elem_of_Object_keys {V : Type} (m : gmap string V) (k : string) :
  k ∈ Object_keys m <-> is_Some (m !! k).
Proof.
  unfold Object_keys. rewrite list_elem_of_fmap. split.
  - intros ([k' v] & -> & Hin). apply elem_of_map_to_list in Hin. eauto.
  - intros [v Hv]. exists (k, v). split; [done|].
    by apply elem_of_map_to_list.
Qed.

(** The text of a string cell. *)
Definition text_of (v : scalar) : string :=
  match v with VStr s => s | _ => EmptyString end.

Lemma fill_row_cells (keys : list string) (r : row) :
  (forall k, k ∈ keys <-> is_Some (r !! k)) ->
  map_Forall (fun (k : string) (v : scalar) => plain_cell v = true) r ->
  fill_row keys 0 ((fun h => text_of (get r h)) <$> keys) ∅ = r.
Proof.
  intros Hkeys Hcells.
  rewrite (fill_row_map (fun h => text_of (get r h)) keys [] ∅).
  apply map_eq. intros k.
  rewrite (foldl_insert_lookup (fun h => VStr (text_of (get r h)))).
  case_decide as Hk.
  - apply Hkeys in Hk as [v Hv]. rewrite Hv. f_equal.
    unfold get. rewrite Hv. simpl. specialize (Hcells k v Hv).
    by destruct v.
  - rewrite lookup_empty. symmetry. apply eq_None_not_Some.
    by rewrite <- Hkeys.
Qed.

Lemma export_line (keys : list string) (r : row) :
  (forall k, k ∈ keys -> exists s, r !! k = Some (VStr s) /\ plain s = true) ->
  join_values "," (map (fun header => csv_cell (get r header)) keys)
  = join "," ((fun h => text_of (get r h)) <$> keys).
Proof.
  intros Hcells. unfold join_values. rewrite map_map. f_equal.
  apply map_ext_in. intros k Hk%list_elem_of_In.
  destruct (Hcells k Hk) as (s & Hs & (Hc & Hq & _)%plain_spec).
  unfold get. rewrite Hs. simpl. by rewrite Hc, Hq.
Qed.

Lemma map_clean_token_plain (l : list string) :
  Forall (fun s => plain s = true) l -> map clean_token l = l.
Proof.
  induction 1 as [|x l Hx _ IH]; simpl; [done|].
  by rewrite IH, clean_token_plain.
Qed.

(** The rows of a plain table, seen from the keys of the first row. *)
Lemma plain_table_rows (first : row) (rest : list row) :
  plain_table (first :: rest) ->
  let keys := Object_keys first in
  keys <> []
  /\ Forall (fun k => k <> "" /\ plain k = true) keys
  /\ Forall (fun r : row =>
               (forall k, k ∈ keys <-> is_Some (r !! k))
               /\ map_Forall (fun (k : string) (v : scalar) =>
                                plain_cell v = true) r
               /\ Forall (fun s => plain s = true)
                         ((fun h => text_of (get r h)) <$> keys))
            (first :: rest).
Proof.
  intros (Hdom & Hplain & Hlast) keys.
  assert (forall r : row, r ∈ first :: rest ->
            forall k, k ∈ keys <-> is_Some (r !! k)) as Hkeys.
  { intros r Hr k. unfold keys. rewrite elem_of_Object_keys.
    rewrite <- !elem_of_dom. by rewrite (Hdom r first Hr) by left. }
  split; [|split].
  - destruct (proj2 (last_is_Some (first :: rest)) ltac:(done)) as [r El].
    destruct (Hlast r El) as (k & s & Hk & _).
    assert (k ∈ keys) as Hin.
    { apply (Hkeys r); [by apply last_Some_elem_of | eauto]. }
    intros Hnil. rewrite Hnil in Hin. by apply elem_of_nil in Hin.
  - apply Forall_forall. intros k Hk.
    apply (Hkeys first) in Hk as [v Hv]; [|left].
    apply Forall_cons in Hplain as [Hfirst _].
    destruct (Hfirst k v Hv) as (? & ? & _). done.
  - apply Forall_forall. intros r Hr.
    rewrite Forall_forall in Hplain. specialize (Hplain r Hr).
    split; [by apply Hkeys|]. split.
    + intros k v Hv. by destruct (Hplain k v Hv) as (_ & _ & ?).
    + apply Forall_fmap, Forall_forall. intros k Hk. simpl.
      apply (Hkeys r Hr) in Hk as [v Hv].
      destruct (Hplain k v Hv) as (_ & _ & Hc).
      unfold get. rewrite Hv. simpl. by destruct v.
Qed.


End RoundTrip.

(** ** The CSV round trip on concrete rows *)

Section RoundTripInstances.

Import JS DataProcessor FileUpload.

(** No cell has an embedded newline. *)
Definition no_embedded_newlines (rows : list row) : Prop :=
  Forall (map_Forall (fun (k : string) (v : scalar) =>
                        Str.has_char Str.newline (ToString v) = false))
         rows.

(** Two row lists hold the same cell values: row by row, every cell of the
    first has, under its key, the same string form in the second. *)
Definition same_cells (rows rows' : list row) : Prop :=
  Forall2 (fun r r' : row =>
             forall k, is_Some (r !! k) ->
                       ToString (get r' k) = ToString (get r k))
          rows rows'.

(** The scenario of the specification: a cell with a comma. *)
Definition comma_rows : list row := [ {[ "x" := VStr "a,b" ]} ].

Example export_comma_rows :
  export RefHost.JSON_stringify comma_rows CSV
  = ("x" ++ String Str.newline "" ++ String Str.dquote "a,b"
         ++ String Str.dquote "")%string.
Proof. by vm_compute. Qed.

Example parseCSV_comma_rows :
  parseCSV (export RefHost.JSON_stringify comma_rows CSV)
  = [ {[ "x" := VStr "a" ]} ].
Proof. by vm_compute. Qed.


(** Each restriction of the amended statement is needed: a double quote
    is lost, white space at the ends of a cell is lost, a last line left
    empty is lost with its row, a cell that is not a string comes back as
    text ([null] as the empty string), and a row is read with the keys of
    the first row. *)
Example parseCSV_quote :
  parseCSV (export RefHost.JSON_stringify
              [ {[ "x" := VStr (String "a" (String Str.dquote "b")) ]} ] CSV)
  = [ {[ "x" := VStr "ab" ]} ].
Proof. by vm_compute. Qed.

Example parseCSV_white_space :
  parseCSV (export RefHost.JSON_stringify [ {[ "x" := VStr " a" ]} ] CSV)
  = [ {[ "x" := VStr "a" ]} ].
Proof. by vm_compute. Qed.

Example parseCSV_empty_last_line :
  parseCSV (export RefHost.JSON_stringify
              [ {[ "x" := VStr "a" ]}; {[ "x" := VStr "" ]} ] CSV)
  = [ {[ "x" := VStr "a" ]} ].
Proof. by vm_compute. Qed.

Example parseCSV_null_cell :
  parseCSV (export RefHost.JSON_stringify
              [ {[ "x" := VNull; "y" := VBool true ]} ] CSV)
  = [ {[ "x" := VStr ""; "y" := VStr "true" ]} ].
Proof. by vm_compute. Qed.

Example parseCSV_other_keys :
  parseCSV (export RefHost.JSON_stringify
              [ {[ "x" := VStr "a" ]}; {[ "y" := VStr "b" ]};
                {[ "x" := VStr "c" ]} ] CSV)
  = [ {[ "x" := VStr "a" ]}; {[ "x" := VStr "" ]}; {[ "x" := VStr "c" ]} ].
Proof. by vm_compute. Qed.

Definition plain_rows : list row :=
  [ {[ "a" := VStr "x"; "n" := VStr "5" ]};
    {[ "a" := VStr "y"; "n" := VStr "" ]};
    {[ "a" := VStr ""; "n" := VStr "abc" ]} ].

Lemma plain_rows_plain : plain_table plain_rows.
Proof.
  split; [|split].
  - intros r1 r2 H1 H2.
    repeat (apply elem_of_cons in H1 as [->|H1]);
      try (by apply elem_of_nil in H1);
      repeat (apply elem_of_cons in H2 as [->|H2]);
      try (by apply elem_of_nil in H2); by vm_compute.
  - constructor; [|constructor; [|constructor; [|constructor]]];
      (intros k v; rewrite lookup_insert_Some, lookup_singleton_Some;
       intros [[<- <-]|[_ [<- <-]]]; by vm_compute).
  - intros r [= <-]. exists "n", "abc". by vm_compute.
Qed.


End RoundTripInstances.

(** ** Sampling *)

Section SampleProperties.

Import JS DataProcessor.

Variable shuffle : list row -> list row.
Variable df : DataFile.

Lemma sample_all (size : Z) (method : Method) :
  (Z.of_nat (length (data df)) <= size)%Z ->
  sample shuffle df size method = data df.
Proof.
  intros H. unfold sample.
  by rewrite (proj2 (Z.leb_le _ _) H).
Qed.

Lemma sample_first (size : Z) :
  (0 <= size < Z.of_nat (length (data df)))%Z ->
  sample shuffle df size First = take (Z.to_nat size) (data df)
  /\ length (sample shuffle df size First) = Z.to_nat size.
Proof.
  intros H. unfold sample, slice, rel_index.
  rewrite (proj2 (Z.leb_gt _ _)) by lia.
  rewrite (proj2 (Z.ltb_ge _ _)) by lia.
  change (0 <? 0)%Z with false. cbn iota.
  rewrite Z.min_l, Z.min_l by lia. rewrite Z.sub_0_r.
  change (Z.to_nat 0) with 0%nat. rewrite drop_0.
  split; [done|]. rewrite length_take. lia.
Qed.

Lemma sample_last (size : Z) :
  (0 < size < Z.of_nat (length (data df)))%Z ->
  sample shuffle df size Last
  = drop (length (data df) - Z.to_nat size) (data df)
  /\ length (sample shuffle df size Last) = Z.to_nat size.
Proof.
  intros H. unfold sample, slice, rel_index.
  rewrite (proj2 (Z.leb_gt _ _)) by lia.
  rewrite (proj2 (Z.ltb_lt _ _)) by lia.
  rewrite Z.max_l by lia.
  replace (Z.to_nat (Z.of_nat (length (data df)) + - size))
    with (length (data df) - Z.to_nat size)%nat by lia.
  rewrite take_ge by (rewrite length_drop; lia).
  split; [done|]. rewrite length_drop. lia.
Qed.

End SampleProperties.

Section SampleZero.

Import JS DataProcessor.

Variable shuffle : list row -> list row.

Definition two_rows : DataFile :=
  {| data := [ {[ "id" := VStr "1" ]}; {[ "id" := VStr "2" ]} ];
     fields := [ {| name := "id"; type := TNumber |} ] |}.

(** C3: with two rows and [n = 0 < rowCount], [sample(0, 'first')] is the
    empty slice but [sample(0, 'last')] returns both rows: [slice(-0)] is
    [slice(0)], the whole array, not the last zero rows. *)
Theorem sample_zero_last_returns_all :
  sample shuffle two_rows 0 First = []
  /\ sample shuffle two_rows 0 Last = data two_rows
  /\ length (sample shuffle two_rows 0 Last) = 2%nat.
Proof. repeat split. Qed.

End SampleZero.

(** ** Aggregation: sum and average *)

Section AggregateProperties.

Import JS DataProcessor.

(** The cells of [valueField] in a group that parse as numbers. *)
Definition parsable_cells (valueField : string) (g : list row) : list num :=
  List.filter (fun v => negb (Num.isNaN v))
              (map (fun r => parseFloat (get r valueField)) g).

(** The mean of a list of numbers, [0] for the empty list. *)
Definition mean (l : list num) : num :=
  match l with
  | [] => Num.zero
  | _ :: _ => Num.div (NumFacts.total l) (Num.of_nat (length l))
  end.

(** The sum of the cells of [valueField], a cell that does not parse
    counting for [0]. *)
Definition sum_zeroing (valueField : string) (g : list row) : num :=
  NumFacts.total
    (map (fun r => let x := parseFloat (get r valueField) in
                   if Num.isNaN x then Num.zero else x) g).

Lemma num_or_zero (x : num) :
  num_or x Num.zero = if Num.isNaN x then Num.zero else x.
Proof.
  unfold num_or, truthy. destruct (Num.isNaN x) eqn:En; [done|]. simpl.
  unfold Num.eqb. destruct (Num.cmp x Num.zero) as [[]|] eqn:E; try done.
  by apply NumFacts.cmp_Eq in E.
Qed.

Lemma aggregate_group_avg (valueField : string) (g : list row) :
  aggregate_group valueField Avg g = mean (parsable_cells valueField g).
Proof.
  unfold aggregate_group. fold (parsable_cells valueField g).
  destruct (parsable_cells valueField g) as [|x l]; [done|].
  cbn [length Nat.ltb Nat.leb mean]. by rewrite NumFacts.foldl_add_total.
Qed.

Lemma aggregate_group_sum (valueField : string) (g : list row) :
  aggregate_group valueField Sum g = sum_zeroing valueField g.
Proof.
  unfold aggregate_group, sum_zeroing.
  rewrite <- NumFacts.foldl_add_total.
  assert (forall acc,
    foldl (fun sum r =>
             Num.add sum (num_or (parseFloat (get r valueField)) Num.zero))
          acc g
    = foldl Num.add acc
        (map (fun r => let x := parseFloat (get r valueField) in
                       if Num.isNaN x then Num.zero else x) g)) as H.
  { induction g as [|r g IH]; intros acc; simpl; [done|].
    by rewrite IH, num_or_zero. }
  apply H.
Qed.

(** The scenario of the specification. *)
Definition scenario_avg : DataFile :=
  {| data := [ {[ "a" := VStr "g"; "n" := VStr "10" ]};
               {[ "a" := VStr "g"; "n" := VStr "abc" ]};
               {[ "a" := VStr "g"; "n" := VStr "20" ]} ];
     fields := [ {| name := "a"; type := TString |};
                 {| name := "n"; type := TNumber |} ] |}.

(** A data file as the csv text of a header [a,n] and the line
    [constructor,1] gives it. *)
Definition inherited_key_file : DataFile :=
  {| data := [ {[ "a" := VStr "constructor"; "n" := VStr "1" ]} ];
     fields := [ {| name := "a"; type := TString |};
                 {| name := "n"; type := TNumber |} ] |}.

(** C4: on the row [{a: constructor, n: 1}] the call [aggregate('a', 'n',
    'avg')], like [groupBy('a')] and the sum, throws instead of returning
    [{constructor: 1}]: the groups are kept in a plain object, where the
    key [constructor] reads as the inherited member, so that no group is
    created and [push] is missing.  On every data file [aggregate] throws
    exactly when [groupBy] does, which is when some group key names an
    inherited member; otherwise avg maps each group key to the mean of the
    cells that parse (0 when none does) and sum to the sum of the parsed
    cells, a cell that does not parse counting for 0; the scenario of the
    specification gives [{g: 15}]. *)
Theorem aggregate_throws_on_inherited_key :
  groupBy inherited_key_file "a" = None
  /\ aggregate inherited_key_file "a" "n" Avg = None
  /\ aggregate inherited_key_file "a" "n" Sum = None
  /\ (forall (df : DataFile) (groupField valueField : string),
        aggregate df groupField valueField Avg
        = (fun groups : gmap string (list row) =>
             (fun g => mean (parsable_cells valueField g)) <$> groups)
          <$> groupBy df groupField
        /\ aggregate df groupField valueField Sum
           = (fun groups : gmap string (list row) =>
                sum_zeroing valueField <$> groups)
             <$> groupBy df groupField
        /\ (groupBy df groupField = None
            <-> exists r, r ∈ data df
                          /\ inherited (group_key groupField r) = true))
  /\ aggregate scenario_avg "a" "n" Avg = Some {[ "g" := Num.of_Z 15 ]}.
Proof.
  split; [done|]. split; [done|]. split; [done|]. split.
  - intros df groupField valueField. rewrite !aggregate_fmap.
    split; [|split; [|apply groupBy_None]].
    + destruct (groupBy df groupField) as [groups|]; [|done].
      cbn [fmap option_fmap option_map]. f_equal.
      apply map_fmap_ext. intros k g _. apply aggregate_group_avg.
    + destruct (groupBy df groupField) as [groups|]; [|done].
      cbn [fmap option_fmap option_map]. f_equal.
      apply map_fmap_ext. intros k g _. apply aggregate_group_sum.
  - by_evaluation.
Qed.

End AggregateProperties.

(** ** Cleaning *)

Section CleanProperties.

Import JS.

Variable Date_time : scalar -> option Z.
Variable Date_toISOString : Z -> string.
Variable df : DataFile.

Local Abbreviation clean_cell :=
  (DataProcessor.clean_cell Date_time Date_toISOString).
Local Abbreviation clean_row :=
  (DataProcessor.clean_row Date_time Date_toISOString df).
Local Abbreviation clean :=
  (DataProcessor.clean Date_time Date_toISOString).

(** The date part of the ISO text of a time value, as [clean] takes it. *)
Definition iso_date (t : Z) : string :=
  default "" (head (Str.split "T" (Date_toISOString t))).

(** The type under which [clean] stores the cell of key [k]: the one of the
    last descriptor of that name. *)
Definition last_type (fs : list FieldInfo) (k : string) : option FieldType :=
  type <$> List.find (fun f => String.eqb (name f) k) (rev fs).

Lemma last_type_snoc (fs : list FieldInfo) (f : FieldInfo) (k : string) :
  last_type (fs ++ [f]) k
  = if decide (name f = k) then Some (type f) else last_type fs k.
Proof.
  unfold last_type. rewrite rev_app_distr. simpl.
  destruct (String.eqb_spec (name f) k); case_decide; done.
Qed.

Lemma last_type_is_Some (fs : list FieldInfo) (k : string) :
  is_Some (last_type fs k) <-> k ∈ name <$> fs.
Proof.
  induction fs as [|f fs IH] using rev_ind.
  - split; [intros [? ?]; done | intros ?%elem_of_nil; done].
  - rewrite last_type_snoc, fmap_app, elem_of_app. simpl.
    rewrite list_elem_of_singleton. case_decide as E.
    + split; [auto | intros _; eauto].
    + rewrite IH. split; [auto | intros [?|?]; congruence].
Qed.

Lemma clean_row_lookup (r : row) (k : string) :
  clean_row r !! k
  = (fun t => clean_cell t (get r k)) <$> last_type (fields df) k.
Proof.
  unfold DataProcessor.clean_row.
  induction (fields df) as [|f fs IH] using rev_ind; [done|].
  rewrite foldl_app, last_type_snoc. simpl.
  case_decide as E.
  - rewrite E. by rewrite lookup_insert_eq.
  - by rewrite lookup_insert_ne.
Qed.

Lemma clean_cell_defined (t : FieldType) (v : scalar) :
  clean_cell t v <> VUndefined.
Proof.
  unfold DataProcessor.clean_cell.
  destruct (is_missing v), t; try done. by destruct (Date_time v).
Qed.


(** The engine's date round trip: the date part of a valid date's ISO
    text is itself read as a valid date with the same date part. *)
Definition iso_date_stable : Prop :=
  forall (v : scalar) (t : Z),
    Date_time v = Some t ->
    iso_date t <> "" /\
    exists t', Date_time (VStr (iso_date t)) = Some t' /\ iso_date t' = iso_date t.

Lemma is_missing_VStr (s : string) : is_missing (VStr s) = String.eqb s "".
Proof. unfold is_missing. simpl. done. Qed.

Lemma clean_cell_idemp (t : FieldType) (v : scalar) :
  iso_date_stable -> clean_cell t (clean_cell t v) = clean_cell t v.
Proof.
  intros Hdate. destruct t.
  - (* string *)
    assert (exists s, clean_cell TString v = VStr s /\ StrFacts.tight s)
      as (s & -> & Hs).
    { unfold DataProcessor.clean_cell. destruct (is_missing v).
      - by exists "".
      - eexists. split; [done | apply StrFacts.trim_tight]. }
    unfold DataProcessor.clean_cell. rewrite is_missing_VStr.
    destruct (String.eqb_spec s "") as [->|_]; [done|].
    simpl. by rewrite Hs.
  - (* number *)
    assert (exists n, clean_cell TNumber v = VNum n /\ Num.isNaN n = false)
      as (n & -> & Hn).
    { unfold DataProcessor.clean_cell. destruct (is_missing v).
      - by eexists.
      - destruct (Num.isNaN (parseFloat v)) eqn:En; by eexists. }
    unfold DataProcessor.clean_cell.
    replace (is_missing (VNum n)) with false by (by destruct n).
    simpl. by rewrite Hn.
  - (* date *)
    unfold DataProcessor.clean_cell at 2 3.
    destruct (is_missing v); [done|].
    destruct (Date_time v) as [tv|] eqn:Ed; [|done].
    destruct (Hdate v tv Ed) as (Hne & t' & Ht' & Hsame).
    fold (iso_date tv). unfold DataProcessor.clean_cell.
    rewrite is_missing_VStr.
    destruct (String.eqb_spec (iso_date tv) ""); [done|].
    rewrite Ht'. fold (iso_date t'). by rewrite Hsame.
Qed.

(** C5: cleaning already-cleaned rows changes nothing: a processor over
    [clean(rows)] and the same field descriptors returns, from [clean],
    rows equal to [clean(rows)]. *)
Theorem clean_idempotent :
  iso_date_stable ->
  clean {| data := clean df; fields := fields df |} = clean df.
Proof.
  intros Hdate. unfold DataProcessor.clean. simpl. rewrite map_map.
  apply map_ext. intros r. apply map_eq. intros k.
  pose proof (clean_row_lookup r k) as H1.
  unfold DataProcessor.clean_row in *. simpl.
  set (r1 := foldl _ ∅ (fields df)) in *.
  transitivity ((fun t => clean_cell t (get r1 k)) <$> last_type (fields df) k).
  - clear H1. generalize r1. intros r2.
    induction (fields df) as [|f fs IH] using rev_ind; [done|].
    rewrite foldl_app, last_type_snoc. simpl.
    case_decide as E.
    + rewrite E. by rewrite lookup_insert_eq.
    + by rewrite lookup_insert_ne.
  - rewrite H1. destruct (last_type (fields df) k) as [t|]; [|done].
    simpl. f_equal. unfold get at 1. rewrite H1. simpl.
    by apply clean_cell_idemp.
Qed.

End CleanProperties.

(** ** The reference host has stable dates *)

Module RefHostFacts.

Import JS RefHost.

Local Open Scope Z_scope.

Lemma digit_inv (c : ascii) (n : Z) :
  digit c = Some n ->
  digit_char n = c /\ 0 <= n <= 9 /\ Ascii.eqb c "T" = false.
Proof.
  destruct c as [[] [] [] [] [] [] [] []]; vm_compute;
    intros H; try discriminate H; injection H as <-; repeat split; congruence.
Qed.

Lemma pad2_digits (a b : Z) (rest : string) :
  0 <= a <= 9 -> 0 <= b <= 9 ->
  pad2 (10 * a + b) rest
  = String (digit_char a) (String (digit_char b) rest).
Proof.
  intros Ha Hb. unfold pad2.
  replace ((10 * a + b) / 10 mod 10) with a
    by (Z.div_mod_to_equations; lia).
  replace ((10 * a + b) mod 10) with b by (Z.div_mod_to_equations; lia).
  done.
Qed.

Lemma pad4_digits (a b c d : Z) (rest : string) :
  0 <= a <= 9 -> 0 <= b <= 9 -> 0 <= c <= 9 -> 0 <= d <= 9 ->
  pad4 (1000 * a + 100 * b + 10 * c + d) rest
  = String (digit_char a) (String (digit_char b)
      (String (digit_char c) (String (digit_char d) rest))).
Proof.
  intros Ha Hb Hc Hd. unfold pad4, pad3, pad2.
  replace ((1000 * a + 100 * b + 10 * c + d) / 1000 mod 10) with a
    by (Z.div_mod_to_equations; lia).
  replace ((1000 * a + 100 * b + 10 * c + d) / 100 mod 10) with b
    by (Z.div_mod_to_equations; lia).
  replace ((1000 * a + 100 * b + 10 * c + d) / 10 mod 10) with c
    by (Z.div_mod_to_equations; lia).
  replace ((1000 * a + 100 * b + 10 * c + d) mod 10) with d
    by (Z.div_mod_to_equations; lia).
  done.
Qed.

(** The ISO text of a valid date text is that text followed by the time
    of midnight. *)
Lemma Date_toISOString_of_text (s : string) (t : Z) :
  Date_time (VStr s) = Some t ->
  Date_toISOString t = (s ++ "T00:00:00.000Z")%string
  /\ Str.has_char "T" s = false /\ s <> "".
Proof.
  unfold Date_time. destruct (read_date s) as [[[y m] d]|] eqn:Er; [|done].
  destruct (civil_from_days (days_from_civil y m d)) as [[y' m'] d'] eqn:Ec.
  destruct ((y' =? y) && (m' =? m) && (d' =? d)) eqn:Echk; [|done].
  intros [= <-].
  apply andb_true_iff in Echk as [[Hy Hm]%andb_true_iff Hd].
  apply Z.eqb_eq in Hy, Hm, Hd. subst y' m' d'.
  unfold read_date in Er.
  do 10 (destruct s as [|? s]; [discriminate Er|]).
  destruct s; [|discriminate Er].
  destruct (Ascii.eqb a3 "-") eqn:E1; [|discriminate Er].
  destruct (Ascii.eqb a6 "-") eqn:E2; [|discriminate Er].
  apply Ascii.eqb_eq in E1, E2. subst a3 a6. cbn [andb] in Er.
  destruct (digit a) as [n1|] eqn:D1; [|discriminate Er].
  destruct (digit a0) as [n2|] eqn:D2; [|discriminate Er].
  destruct (digit a1) as [n3|] eqn:D3; [|discriminate Er].
  destruct (digit a2) as [n4|] eqn:D4; [|discriminate Er].
  destruct (digit a4) as [n5|] eqn:D5; [|discriminate Er].
  destruct (digit a5) as [n6|] eqn:D6; [|discriminate Er].
  destruct (digit a7) as [n7|] eqn:D7; [|discriminate Er].
  destruct (digit a8) as [n8|] eqn:D8; [|discriminate Er].
  injection Er as <- <- <-.
  apply digit_inv in D1 as (C1 & R1 & T1), D2 as (C2 & R2 & T2),
    D3 as (C3 & R3 & T3), D4 as (C4 & R4 & T4), D5 as (C5 & R5 & T5),
    D6 as (C6 & R6 & T6), D7 as (C7 & R7 & T7), D8 as (C8 & R8 & T8).
  split; [|split; [|done]].
  - unfold Date_toISOString.
    rewrite Z.div_mul, Z.mod_mul by done. rewrite Ec.
    rewrite (proj2 (Z.leb_le _ _)), (proj2 (Z.leb_le _ _)) by lia.
    cbn [andb].
    rewrite pad4_digits, !pad2_digits by done.
    rewrite C1, C2, C3, C4, C5, C6, C7, C8. reflexivity.
  - cbn [Str.has_char]. rewrite T1, T2, T3, T4, T5, T6, T7, T8. reflexivity.
Qed.

Lemma iso_date_stable_RefHost :
  iso_date_stable Date_time Date_toISOString.
Proof.
  intros v t Ht. destruct v as [| | | |s]; try discriminate Ht.
  destruct (Date_toISOString_of_text s t Ht) as (Hiso & HT & Hne).
  assert (iso_date Date_toISOString t = s) as Hs.
  { unfold iso_date. rewrite Hiso.
    change (s ++ "T00:00:00.000Z")%string
      with (s ++ String "T" "00:00:00.000Z")%string.
    by rewrite CsvFacts.split_app. }
  rewrite Hs. split; [done|]. exists t. by rewrite Hs.
Qed.

End RefHostFacts.

(** ** Cleaning on concrete rows *)

Section CleanInstances.

Import JS DataProcessor.

(** The scenario of the specification, with a date column. *)
Definition scenario_clean : DataFile :=
  {| data := [ {[ "a" := VStr " x "; "n" := VStr "5"; "d" := VStr "2024-02-29" ]};
               {[ "a" := VStr "y"; "n" := VStr "abc"; "d" := VStr "someday";
                  "extra" := VBool true ]};
               {[ "n" := VNull ]} ];
     fields := [ {| name := "a"; type := TString |};
                 {| name := "n"; type := TNumber |};
                 {| name := "d"; type := TDate |} ] |}.

Example clean_scenario :
  clean RefHost.Date_time RefHost.Date_toISOString scenario_clean
  = [ {[ "a" := VStr "x"; "n" := VNum (Num.of_Z 5); "d" := VStr "2024-02-29" ]};
      {[ "a" := VStr "y"; "n" := VNum (Num.of_Z 0); "d" := VNull ]};
      {[ "a" := VStr ""; "n" := VNum (Num.of_Z 0); "d" := VNull ]} ].
Proof. by_evaluation. Qed.

Lemma clean_idempotent_witness :
  clean RefHost.Date_time RefHost.Date_toISOString
        {| data := clean RefHost.Date_time RefHost.Date_toISOString
                         scenario_clean;
           fields := fields scenario_clean |}
  = clean RefHost.Date_time RefHost.Date_toISOString scenario_clean.
Proof.
  apply (clean_idempotent RefHost.Date_time RefHost.Date_toISOString
                          scenario_clean).
  exact RefHostFacts.iso_date_stable_RefHost.
Defined.

End CleanInstances.

(** ** Filtering *)

Section FilterProperties.

Variable df : DataFile.

Import DataProcessor.

Lemma filter_app (c1 c2 : list FilterCondition) :
  filter df (c1 ++ c2)
  = List.filter (fun r => forallb (satisfies r) c2) (filter df c1).
Proof.
  unfold filter. induction (data df) as [|r rows IH]; simpl; [done|].
  rewrite forallb_app.
  destruct (forallb (satisfies r) c1); simpl; [|exact IH].
  destruct (forallb (satisfies r) c2); simpl; by rewrite IH.
Qed.

(** C6: every row that passes the conditions [c1 ++ c2] also passes [c1]:
    appending conditions can only shrink the result of [filter]. *)
Theorem filter_monotone (c1 c2 : list FilterCondition) :
  forall r : row, r ∈ filter df (c1 ++ c2) -> r ∈ filter df c1.
Proof.
  intros r. rewrite filter_app, !list_elem_of_In, filter_In. tauto.
Qed.

End FilterProperties.

(** ** Filtering on concrete rows *)

Section FilterInstance.

Import JS DataProcessor.

(** The scenario of the specification: one row [{v:5}] and a
    [between 1 and 10] condition. *)
Definition scenario_between : DataFile :=
  {| data := [ {[ "v" := VStr "5" ]} ];
     fields := [ {| name := "v"; type := TNumber |} ] |}.

Definition between_1_10 : FilterCondition :=
  {| fc_field := "v"; operator := Between;
     fc_value := VStr "1"; fc_value2 := VStr "10" |}.

Definition v_not_empty : FilterCondition :=
  {| fc_field := "v"; operator := NotEmpty;
     fc_value := VUndefined; fc_value2 := VUndefined |}.

Lemma filter_monotone_witness :
  ({[ "v" := VStr "5" ]} : row) ∈ filter scenario_between [between_1_10].
Proof.
  apply (filter_monotone scenario_between [between_1_10] [v_not_empty]).
  vm_compute. left.
Defined.

End FilterInstance.

(** ** Sorting rows *)

Section SortRowsStable.

Import JS DataProcessor.

Variable localeCompare : string -> string -> num.
Variable Date_time : scalar -> option Z.
Variable arrangement : forall A : Type, (A -> A -> num) -> list A -> list nat.
Variable df : DataFile.

Local Abbreviation comparison_of :=
  (DataProcessor.comparison_of localeCompare Date_time df).
Local Abbreviation compare_rows :=
  (DataProcessor.compare_rows localeCompare Date_time df).
Local Abbreviation sort :=
  (DataProcessor.sort localeCompare Date_time arrangement df).

(** Every condition's per-field comparison of [a] and [b] is [0]. *)
Definition all_tie (conditions : list SortCondition) (a b : row) : Prop :=
  Forall (fun c => Num.eqb (comparison_of c a b) Num.zero = true) conditions.

Lemma compare_rows_tie (conditions : list SortCondition) (a b : row) :
  all_tie conditions a b -> compare_rows conditions a b = Num.zero.
Proof.
  induction 1 as [|c cs Hc _ IH]; simpl; [done|]. by rewrite Hc.
Qed.

(** Where the comparator of the conditions is consistent on the rows,
    [sort(rows, conditions)] is stable, whatever the engine.  Its result
    lists the rows at the positions [π], a rearrangement of all positions
    of [rows], and any two rows for which every condition's comparison
    yields 0 keep their relative order: the earlier position comes first
    in [π]. *)
Lemma sort_stable_consistent (rows : list row)
    (conditions : list SortCondition) :
  consistent_on (compare_rows conditions) rows = true ->
  exists π : list nat,
    π ≡ₚ seq 0 (length rows)
    /\ Forall2 (fun r i => rows !! i = Some r) (sort rows conditions) π
    /\ forall i j a b,
         i < j -> rows !! i = Some a -> rows !! j = Some b ->
         all_tie conditions a b -> [i; j] `sublist_of` π.
Proof.
  intros Hcons. unfold DataProcessor.sort.
  rewrite Array_sort_consistent by done.
  destruct (sort_stable_positions (compare_rows conditions) rows)
    as (π & Hperm & Hrows & Hkeep).
  exists π. split; [done|]. split; [done|].
  intros i j a b Hij Hi Hj Htie. apply (Hkeep i j a b); try done.
  unfold follows. by rewrite compare_rows_tie.
Qed.

End SortRowsStable.

Section SortInstance.

Import JS DataProcessor.

Definition scenario_sort : DataFile :=
  {| data := [ {[ "id" := VStr "a"; "n" := VStr "2" ]};
               {[ "id" := VStr "b"; "n" := VStr "1" ]};
               {[ "id" := VStr "c"; "n" := VStr "2.0" ]};
               {[ "id" := VStr "d"; "n" := VStr "10" ]} ];
     fields := [ {| name := "id"; type := TString |};
                 {| name := "n"; type := TNumber |} ] |}.

(** Numbers compare by value, and the rows [a] and [c], tied on [n], keep
    their order in both directions. *)
Example sort_scenario_asc :
  sort RefHost.localeCompare RefHost.Date_time RefHost.arrangement
       scenario_sort
       (data scenario_sort) [ {| sc_field := "n"; direction := Asc |} ]
  = [ {[ "id" := VStr "b"; "n" := VStr "1" ]};
      {[ "id" := VStr "a"; "n" := VStr "2" ]};
      {[ "id" := VStr "c"; "n" := VStr "2.0" ]};
      {[ "id" := VStr "d"; "n" := VStr "10" ]} ].
Proof. by vm_compute. Qed.

Example sort_scenario_desc :
  sort RefHost.localeCompare RefHost.Date_time RefHost.arrangement
       scenario_sort
       (data scenario_sort) [ {| sc_field := "n"; direction := Desc |} ]
  = [ {[ "id" := VStr "d"; "n" := VStr "10" ]};
      {[ "id" := VStr "a"; "n" := VStr "2" ]};
      {[ "id" := VStr "c"; "n" := VStr "2.0" ]};
      {[ "id" := VStr "b"; "n" := VStr "1" ]} ].
Proof. by vm_compute. Qed.

(** On these rows, all cells parsing, the engine has no say: its
    arrangement equals the stable order. *)
Example arrangement_scenario :
  RefHost.binary_insertion
    (compare_rows RefHost.localeCompare RefHost.Date_time scenario_sort
                  [ {| sc_field := "n"; direction := Asc |} ])
    (data scenario_sort)
  = sort RefHost.localeCompare RefHost.Date_time RefHost.arrangement
         scenario_sort
         (data scenario_sort) [ {| sc_field := "n"; direction := Asc |} ].
Proof. by vm_compute. Qed.

(** A row of the data file below. *)
Definition tied_row (id x : string) : row :=
  {[ "id" := VStr id; "x" := VStr x ]}.

(** A data file as the csv text with the header [id,x] and the cells
    0, 0, 9, abc, 5, 1, 5 of [x] gives it: six cells of seven are numbers,
    which types [x] as a number. *)
Definition tied_file : DataFile :=
  {| data := [ tied_row "r0" "0"; tied_row "r1" "0"; tied_row "r2" "9";
               tied_row "r3" "abc"; tied_row "r4" "5"; tied_row "r5" "1";
               tied_row "r6" "5" ];
     fields := [ {| name := "id"; type := TString |};
                 {| name := "x"; type := TNumber |} ] |}.

Definition by_x : list SortCondition :=
  [ {| sc_field := "x"; direction := Asc |} ].

(** C7: on these rows, sorted by [x], the rows [r4] and [r6] tie on the
    one condition, [r4] first.  The cell [abc] of [r3] does not parse, and
    the comparator returns [NaN] for it, which the sort reads as a tie:
    [r2] ties with [r3] and [r3] with [r4], yet [r2] has to follow [r4], so
    that the comparator is not consistent and the order is left to the
    engine.  An engine that inserts by binary search returns [r6] before
    [r4]: the tied rows have changed places. *)
Theorem sort_swaps_tied_rows :
  all_tie RefHost.localeCompare RefHost.Date_time tied_file by_x
          (tied_row "r4" "5") (tied_row "r6" "5")
  /\ data tied_file !! 4 = Some (tied_row "r4" "5")
  /\ data tied_file !! 6 = Some (tied_row "r6" "5")
  /\ (let comparefn :=
        compare_rows RefHost.localeCompare RefHost.Date_time tied_file by_x in
      Num.isNaN (comparefn (tied_row "r2" "9") (tied_row "r3" "abc")) = true
      /\ order comparefn (tied_row "r2" "9") (tied_row "r3" "abc") = Eq
      /\ order comparefn (tied_row "r3" "abc") (tied_row "r4" "5") = Eq
      /\ order comparefn (tied_row "r2" "9") (tied_row "r4" "5") = Gt
      /\ consistent_on comparefn (data tied_file) = false)
  /\ sort RefHost.localeCompare RefHost.Date_time RefHost.arrangement
          tied_file (data tied_file) by_x
     = [ tied_row "r0" "0"; tied_row "r1" "0"; tied_row "r5" "1";
         tied_row "r6" "5"; tied_row "r2" "9"; tied_row "r3" "abc";
         tied_row "r4" "5" ].
Proof.
  split; [by repeat constructor|]. split; [done|]. split; [done|].
  split; [by vm_compute | by vm_compute].
Qed.

End SortInstance.

(** ** Numeric statistics *)

Section StatsProperties.

Import JS DataProcessor.

(** [m] is a least (greatest) element of [l]. *)
Definition least (m : num) (l : list num) : Prop :=
  m ∈ l /\ forall v, v ∈ l -> Num.le m v.
Definition greatest (m : num) (l : list num) : Prop :=
  m ∈ l /\ forall v, v ∈ l -> Num.le v m.

(** The median of an ascending list: the middle value when the count is
    odd, the average of the two central values when it is even. *)
Inductive is_median : list num -> num -> Prop :=
  | median_odd (l r : list num) (m : num) :
      length l = length r -> is_median (l ++ m :: r) m
  | median_even (l r : list num) (a b : num) :
      length l = length r ->
      is_median (l ++ a :: b :: r) (Num.div (Num.add a b) (Num.of_Z 2)).

Lemma at_num_app (l r : list num) (x : num) :
  at_num (l ++ x :: r) (length l) = x.
Proof. unfold at_num. rewrite app_nth2 by lia. by rewrite Nat.sub_diag. Qed.

Lemma median_of_is_median (values : list num) :
  values <> [] -> is_median values (median_of values).
Proof.
  intros Hne. unfold median_of.
  assert (0 < length values)%nat as Hpos
    by (destruct values; [done | simpl; lia]).
  remember (length values) as len eqn:Elen.
  destruct (Nat.eqb_spec (len mod 2) 0) as [Heven|Hodd].
  - assert (len = 2 * (len / 2))%nat as Hh
      by (rewrite (Nat.div_mod_eq len 2) at 1; lia).
    remember (len / 2)%nat as h eqn:Eh. clear Eh Heven.
    rewrite <- (take_drop (h - 1) values).
    assert (length (take (h - 1) values) = (h - 1)%nat) as Hl
      by (rewrite length_take; lia).
    assert (length (drop (h - 1) values) = S h)%nat as Hr
      by (rewrite length_drop; lia).
    destruct (drop (h - 1) values) as [|a [|b r]];
      [cbn [length] in Hr; lia | cbn [length] in Hr; lia |].
    cbn [length] in Hr.
    remember (take (h - 1) values) as l eqn:El. clear El.
    assert (at_num (l ++ a :: b :: r) (h - 1) = a) as ->
      by (rewrite <- Hl; apply at_num_app).
    assert (at_num (l ++ a :: b :: r) h = b) as ->.
    { replace h with (length (l ++ [a]))
        by (rewrite length_app, Hl; cbn [length]; lia).
      rewrite (cons_middle a), app_assoc. apply at_num_app. }
    apply median_even. lia.
  - assert (len = 2 * (len / 2) + 1)%nat as Hh.
    { pose proof (Nat.div_mod_eq len 2).
      pose proof (Nat.mod_upper_bound len 2). lia. }
    remember (len / 2)%nat as h eqn:Eh. clear Eh Hodd.
    rewrite <- (take_drop h values).
    assert (length (take h values) = h) as Hl
      by (rewrite length_take; lia).
    assert (length (drop h values) = S h)%nat as Hr
      by (rewrite length_drop; lia).
    destruct (drop h values) as [|m r]; [cbn [length] in Hr; lia|].
    cbn [length] in Hr.
    remember (take h values) as l eqn:El. clear El.
    assert (at_num (l ++ m :: r) h = m) as ->
      by (rewrite <- Hl; apply at_num_app).
    apply median_odd. lia.
Qed.

Lemma StronglySorted_snoc (l : list num) (x : num) :
  StronglySorted Num.le (l ++ [x]) -> Forall (fun y => Num.le y x) l.
Proof.
  induction l as [|y l IH]; simpl; [constructor|].
  intros [Hs Hall]%StronglySorted_inv. constructor; [|by apply IH].
  rewrite Forall_app, Forall_singleton in Hall. by destruct Hall.
Qed.

Lemma sorted_least (x : num) (l : list num) :
  Num.isNaN x = false -> Sorted Num.le (x :: l) -> least x (x :: l).
Proof.
  intros Hx Hs. split; [left|].
  apply (Sorted_StronglySorted _) in Hs.
  apply StronglySorted_inv in Hs as [_ Hall].
  intros v [->|Hv]%elem_of_cons; [by apply NumFacts.le_refl|].
  eapply Forall_forall in Hall; [done | done].
Qed.

Lemma sorted_greatest (l : list num) (x : num) :
  Num.isNaN x = false -> Sorted Num.le (l ++ [x]) -> greatest x (l ++ [x]).
Proof.
  intros Hx Hs. split; [apply elem_of_app; right; left|].
  apply (Sorted_StronglySorted _) in Hs.
  apply StronglySorted_snoc in Hs.
  intros v [Hv|Hv]%elem_of_app.
  - eapply Forall_forall in Hs; [done | done].
  - apply list_elem_of_singleton in Hv as ->. by apply NumFacts.le_refl.
Qed.

Lemma parsed_values_no_NaN (df : DataFile) (fieldName : string) :
  no_NaN (parsed_values df fieldName).
Proof.
  unfold no_NaN, parsed_values. apply Forall_forall. intros v Hv.
  apply list_elem_of_In, filter_In in Hv as [_ Hv].
  by destruct (Num.isNaN v).
Qed.

Lemma find_field_declared (fs : list FieldInfo) (fieldName : string) :
  NoDup (name <$> fs) ->
  (type <$> find_field fs fieldName = Some TNumber)
  <-> (exists f, f ∈ fs /\ name f = fieldName /\ type f = TNumber).
Proof.
  unfold find_field. induction fs as [|f fs IH]; simpl.
  - intros _. split; [done | intros (f & Hf & _); by apply elem_of_nil in Hf].
  - intros [Hnotin Hnd]%NoDup_cons. specialize (IH Hnd).
    destruct (String.eqb_spec (name f) fieldName) as [Heq|Hne]; simpl.
    + split.
      * intros [= Ht]. exists f. split; [left | done].
      * intros (f' & [->|Hin]%elem_of_cons & Hn & Ht); [by rewrite Ht|].
        exfalso. apply Hnotin. rewrite Heq, <- Hn.
        apply list_elem_of_fmap. by exists f'.
    + rewrite IH. split.
      * intros (f' & Hin & Hn & Ht). exists f'. split; [by right | done].
      * intros (f' & [->|Hin]%elem_of_cons & Hn & Ht); [done|].
        by exists f'.
Qed.

End StatsProperties.

Section StatsTheorem.

Import JS DataProcessor.

Definition stats_of_sorted (values : list num) : NumericStats :=
  {| st_min := at_num values 0;
     st_max := at_num values (length values - 1);
     st_avg := Num.div (foldl Num.add Num.zero values)
                       (Num.of_nat (length values));
     st_median := median_of values |}.

(** The comparator [(a, b) => a - b] is consistent on numbers other than
    [NaN]. *)
Lemma consistent_difference (l : list num) :
  no_NaN l -> consistent_on (fun a b => Num.sub a b) l = true.
Proof.
  intros Hl. apply (consistent_by_key _ (fun a => a)). intros a b Ha Hb.
  unfold order.
  apply OrderFacts.sign_sub; by apply (proj1 (Forall_forall _ _) Hl).
Qed.

Lemma getNumericStats_unfold
    (arrangement : forall A : Type, (A -> A -> num) -> list A -> list nat)
    (df : DataFile) (fieldName : string) :
  getNumericStats arrangement df fieldName
  = if decide (type <$> find_field (fields df) fieldName = Some TNumber)
    then match stable_sort (fun a b => Num.sub a b)
                          (parsed_values df fieldName) with
         | [] => None
         | values => Some (stats_of_sorted values)
         end
    else None.
Proof.
  unfold getNumericStats.
  rewrite Array_sort_consistent
    by apply consistent_difference, parsed_values_no_NaN.
  destruct (find_field (fields df) fieldName) as [f|]; simpl; [|done].
  destruct (type f); simpl; try done.
  by destruct (stable_sort _ _).
Qed.

Lemma stats_of_sorted_spec (parsed values : list num) :
  values <> [] -> values ≡ₚ parsed -> no_NaN values -> Sorted Num.le values ->
  least (at_num values 0) parsed
  /\ greatest (at_num values (length values - 1)) parsed
  /\ Num.div (foldl Num.add Num.zero values) (Num.of_nat (length values))
     = mean parsed
  /\ forall s, s ≡ₚ parsed -> Sorted Num.le s -> is_median s (median_of values).
Proof.
  intros Hne Hperm Hnan Hsorted. repeat split.
  - destruct values as [|x l]; [done|].
    apply Forall_cons in Hnan as [Hx _].
    rewrite <- Hperm. by apply sorted_least.
  - intros v Hv. rewrite <- Hperm in Hv.
    destruct values as [|x l]; [done|].
    apply Forall_cons in Hnan as [Hx _].
    by apply (sorted_least x l Hx Hsorted).
  - destruct (exists_last Hne) as (l & x & ->).
    rewrite length_app. cbn [length].
    replace (length l + 1 - 1)%nat with (length l) by lia.
    rewrite <- Hperm, (at_num_app l [] x). apply elem_of_app. right. left.
  - intros v Hv. rewrite <- Hperm in Hv.
    destruct (exists_last Hne) as (l & x & ->).
    rewrite length_app. cbn [length].
    replace (length l + 1 - 1)%nat with (length l) by lia.
    rewrite (at_num_app l [] x).
    unfold no_NaN in Hnan. rewrite Forall_app, Forall_singleton in Hnan.
    destruct Hnan as [_ Hx]. by apply (sorted_greatest l x Hx Hsorted).
  - rewrite NumFacts.foldl_add_total, (NumFacts.total_Permutation _ _ Hperm).
    rewrite (Permutation_length Hperm).
    destruct parsed as [|y p]; [|done].
    apply Permutation_nil_r in Hperm. done.
  - intros s Hs Hss.
    assert (s = values) as ->.
    { apply (Sorted_unique Num.le); [done | done |]. by rewrite Hperm. }
    by apply median_of_is_median.
Qed.

(** The scenario of the specification: a numeric field with the values
    1, 2, 3, 4. *)
Definition scenario_1234 : DataFile :=
  {| data := [ {[ "x" := VNum (Num.of_Z 1) ]}; {[ "x" := VNum (Num.of_Z 2) ]};
               {[ "x" := VNum (Num.of_Z 3) ]}; {[ "x" := VNum (Num.of_Z 4) ]} ];
     fields := [ {| name := "x"; type := TNumber |} ] |}.

(** C8: with field names unique, [getNumericStats(f)] is null exactly when
    [f] is not a declared field of type number or no cell of [f] parses as a
    number; otherwise it returns a least and a greatest parsed value, the mean
    of the parsed values, and the median of their ascending arrangement (the
    middle value for an odd count, the average of the two central ones for
    an even count); the values 1, 2, 3, 4 give min 1, max 4, avg 2.5,
    median 2.5. *)
Theorem getNumericStats_spec
    (arrangement : forall A : Type, (A -> A -> num) -> list A -> list nat)
    (df : DataFile) (fieldName : string) :
  NoDup (name <$> fields df) ->
  (getNumericStats arrangement df fieldName = None
   <-> (~ (exists f, f ∈ fields df /\ name f = fieldName /\ type f = TNumber)
        \/ parsed_values df fieldName = []))
  /\ (forall st, getNumericStats arrangement df fieldName = Some st ->
        least (st_min st) (parsed_values df fieldName)
        /\ greatest (st_max st) (parsed_values df fieldName)
        /\ st_avg st = mean (parsed_values df fieldName)
        /\ forall s, s ≡ₚ parsed_values df fieldName -> Sorted Num.le s ->
             is_median s (st_median st))
  /\ getNumericStats arrangement scenario_1234 "x"
     = Some {| st_min := Num.of_Z 1; st_max := Num.of_Z 4;
               st_avg := Fin (Q2Qc (5 # 2)); st_median := Fin (Q2Qc (5 # 2)) |}.
Proof.
  intros Hnd. rewrite !getNumericStats_unfold.
  pose proof (find_field_declared (fields df) fieldName Hnd) as Hdecl.
  pose proof (sort_Permutation (fun a b => Num.sub a b)
                (parsed_values df fieldName)) as Hperm.
  pose proof (sort_Sorted _ (parsed_values_no_NaN df fieldName)) as Hsorted.
  pose proof (sort_no_NaN _ (parsed_values_no_NaN df fieldName)) as Hnan.
  split; [|split].
  - case_decide as Hty.
    + destruct (stable_sort _ _) as [|x l] eqn:Es.
      * split; [intros _; right | done].
        by apply Permutation_nil_l in Hperm.
      * split; [done|]. intros [Hno|Hnil].
        -- exfalso. apply Hno. by apply Hdecl.
        -- rewrite Hnil in Hperm. by apply Permutation_nil_r in Hperm.
    + split; [intros _; left | done]. by rewrite <- Hdecl.
  - intros st. case_decide as Hty; [|done].
    destruct (stable_sort _ _) as [|x l] eqn:Es; [done|].
    intros [= <-]. by apply stats_of_sorted_spec.
  - by_evaluation.
Qed.

Lemma getNumericStats_spec_witness :
  NoDup (name <$> fields scenario_1234)
  /\ least (Num.of_Z 1) (parsed_values scenario_1234 "x").
Proof.
  assert (NoDup (name <$> fields scenario_1234)) as Hnd
    by (repeat constructor; by intros ?%elem_of_nil).
  split; [exact Hnd|].
  destruct (getNumericStats_spec RefHost.arrangement scenario_1234 "x" Hnd)
    as (_ & Hst & Hex).
  exact (proj1 (Hst _ Hex)).
Defined.

End StatsTheorem.

(** ** Field type inference *)

Section InferenceProperties.

Import JS FileUpload.

Variable Date_time : scalar -> option Z.

Lemma Qc_ratio_gt (k n : Z) :
  (0 < n)%Z ->
  ((Q2Qc (inject_Z k) / Q2Qc (inject_Z n) ?= Q2Qc (4 # 5))%Qc = Gt
   <-> (4 * n < 5 * k)%Z).
Proof.
  intros Hn. rewrite <- Qcgt_alt. unfold Qclt.
  cbn [this Qcdiv Qcmult Qcinv Q2Qc].
  rewrite !Qred_correct.
  destruct n as [|p|p]; try lia.
  unfold Qlt, Qmult, Qinv, inject_Z. cbn [Qnum Qden].
  rewrite Pos.mul_1_l. lia.
Qed.

Lemma Qc_sign_pos (n : Z) :
  (0 < n)%Z -> Num.Qc_sign (Q2Qc (inject_Z n)) = Gt.
Proof.
  intros Hn. unfold Num.Qc_sign. apply Qcgt_alt. unfold Qclt.
  cbn [this Q2Qc]. rewrite !Qred_correct.
  unfold Qlt, inject_Z. cbn [Qnum Qden]. lia.
Qed.

(** The test [count / total > 0.8] on the counts of a column. *)
Lemma ratio_test (k n : nat) :
  k <= n ->
  Num.gtb (Num.div (Num.of_nat k) (Num.of_nat n)) threshold
  = bool_decide (4 * n < 5 * k).
Proof.
  intros Hkn. destruct n as [|n].
  - replace k with 0 by lia. by vm_compute.
  - unfold Num.of_nat, Num.of_Z, Num.div.
    rewrite (Qc_sign_pos (Z.of_nat (S n))) by lia.
    unfold Num.gtb, threshold. cbn [Num.cmp].
    pose proof (Qc_ratio_gt (Z.of_nat k) (Z.of_nat (S n)) ltac:(lia)) as H.
    destruct (_ ?= _)%Qc; case_bool_decide; try done;
      first [ assert (Gt = Gt) as HG by done; apply H in HG; lia
            | assert (4 * Z.of_nat (S n) < 5 * Z.of_nat k)%Z as HL by lia;
              by apply H in HL ].
Qed.

Lemma filter_length_bound {A : Type} (p : A -> bool) (l : list A) :
  length (List.filter p l) <= length l.
Proof.
  induction l as [|x l IH]; simpl; [done|]. destruct (p x); simpl; lia.
Qed.

(** C9: with [n] the number of sampled values of the column that are not
    missing, [k] the number of those that convert to a number and [d] the
    number of those that are valid dates whose text contains an ISO or a
    slash date, the column is [number] when [k / n > 0.8] (that is
    [5 k > 4 n]), else [date] when [d / n > 0.8], else [string]; a column
    whose sampled values are all missing is [string]; and [analyzeFields]
    gives every key of the first row the type so inferred. *)
Theorem infer_type_spec (rows : list row) (key : string) :
  let n := length (nonNullValues rows key) in
  let k := numericCount rows key in
  let d := dateCount Date_time rows key in
  infer_type Date_time rows key
  = (if decide (4 * n < 5 * k) then TNumber
     else if decide (4 * n < 5 * d) then TDate else TString)
  /\ (n = 0 -> infer_type Date_time rows key = TString)
  /\ (name <$> analyzeFields Date_time rows
      = match rows with [] => [] | first :: _ => Object_keys first end)
  /\ Forall (fun f => type f = infer_type Date_time rows (name f))
            (analyzeFields Date_time rows).
Proof.
  intros n k d.
  assert (infer_type Date_time rows key
          = (if decide (4 * n < 5 * k) then TNumber
             else if decide (4 * n < 5 * d) then TDate else TString)) as Heq.
  { unfold infer_type. fold n k d.
    rewrite !ratio_test by apply filter_length_bound.
    fold n k d. by repeat case_bool_decide; repeat case_decide. }
  split; [exact Heq|]. split; [|split].
  - intros Hn. rewrite Heq.
    assert (k <= n) by apply filter_length_bound.
    assert (d <= n) by apply filter_length_bound.
    repeat case_decide; try done; lia.
  - unfold analyzeFields. destruct rows as [|first rest]; [done|].
    rewrite <- list_fmap_compose. apply list_fmap_id.
  - unfold analyzeFields. destruct rows as [|first rest]; [constructor|].
    apply Forall_fmap, Forall_true. done.
Qed.

End InferenceProperties.

Section InferenceInstance.

Import JS FileUpload.

Definition raw_rows : list row :=
  [ {[ "n" := VStr "1"; "d" := VStr "2024-01-15"; "s" := VStr "x"; "e" := VStr "" ]};
    {[ "n" := VStr "2.5"; "d" := VStr "2024-02-29"; "s" := VStr "7"; "e" := VStr "" ]};
    {[ "n" := VStr "-3"; "d" := VStr "2023-12-31"; "s" := VStr "y"; "e" := VStr "" ]};
    {[ "n" := VStr "1e3"; "d" := VStr "2022-06-01"; "s" := VStr "z"; "e" := VStr "" ]};
    {[ "n" := VStr "n/a"; "d" := VStr ""; "s" := VStr "8"; "e" := VStr "" ]} ].

(** Four of the five values of [n] are numbers: exactly 0.8, not more. *)
Example infer_type_n : infer_type RefHost.Date_time raw_rows "n" = TString.
Proof. by vm_compute. Qed.

Example infer_type_n4 :
  infer_type RefHost.Date_time (take 4 raw_rows) "n" = TNumber.
Proof. by vm_compute. Qed.

(** All four values of [d] that are not missing are dates. *)
Example infer_type_d : infer_type RefHost.Date_time raw_rows "d" = TDate.
Proof. by vm_compute. Qed.

Example infer_type_s : infer_type RefHost.Date_time raw_rows "s" = TString.
Proof. by vm_compute. Qed.

(** Every value of [e] is missing. *)
Example infer_type_e : infer_type RefHost.Date_time raw_rows "e" = TString.
Proof. by vm_compute. Qed.

End InferenceInstance.

(** * Further properties of the engine *)

(** ** Dataset statistics *)

Section StatsExtras.

Import JS DataProcessor.

Variable df : DataFile.

(** The number of declared fields of a row whose cell is missing. *)
Definition missing_in (r : row) : nat :=
  length (List.filter (fun f => is_missing (get r (name f))) (fields df)).

Lemma count_missing_spec (r : row) (missing : nat) :
  count_missing df missing r = missing + missing_in r.
Proof.
  unfold count_missing, missing_in. revert missing.
  induction (fields df) as [|f fs IH]; intros missing; simpl; [lia|].
  rewrite IH. destruct (is_missing (get r (name f))); simpl; lia.
Qed.

Lemma sum_list_cons (x : nat) (l : list nat) :
  sum_list (x :: l) = x + sum_list l.
Proof. reflexivity. Qed.

Lemma missingValues_sum :
  missingValues (getStats df) = sum_list (missing_in <$> data df).
Proof.
  unfold getStats. cbn [missingValues].
  assert (forall acc, foldl (count_missing df) acc (data df)
                      = acc + sum_list (missing_in <$> data df)) as H.
  { induction (data df) as [|r rows IH]; intros acc; [simpl; lia|].
    rewrite fmap_cons, sum_list_cons. cbn [foldl].
    rewrite IH, count_missing_spec. lia. }
  apply (H 0).
Qed.

Lemma missing_in_bound (r : row) : missing_in r <= length (fields df).
Proof. apply filter_length_bound. Qed.

Lemma missing_in_zero (r : row) :
  missing_in r = 0
  <-> Forall (fun f => is_missing (get r (name f)) = false) (fields df).
Proof.
  unfold missing_in. induction (fields df) as [|f fs IH]; simpl.
  - split; [constructor | done].
  - rewrite Forall_cons. destruct (is_missing (get r (name f))); simpl.
    + split; [lia | intros [? _]; done].
    + rewrite IH. tauto.
Qed.

(** X1: in the statistics the three per-type counts add up to the number of
    columns, which is the number of field descriptors, and the number of
    rows is the length of the data. *)
Theorem getStats_counts :
  numericFields (getStats df) + textFields (getStats df)
  + dateFields (getStats df) = totalColumns (getStats df)
  /\ totalColumns (getStats df) = length (fields df)
  /\ totalRows (getStats df) = length (data df).
Proof.
  split; [|done]. unfold getStats.
  cbn [numericFields textFields dateFields totalColumns].
  induction (fields df) as [|f fs IH]; simpl; [done|].
  destruct (type f); simpl; lia.
Qed.

(** X2: the count of missing values is at most rows times columns, and it
    is 0 exactly when no declared field of any row is missing (absent,
    null, undefined or the empty string). *)
Theorem getStats_missing :
  missingValues (getStats df)
  <= totalRows (getStats df) * totalColumns (getStats df)
  /\ (missingValues (getStats df) = 0
      <-> Forall (fun r : row =>
                    Forall (fun f => is_missing (get r (name f)) = false)
                           (fields df))
                 (data df)).
Proof.
  rewrite missingValues_sum. unfold getStats. cbn [totalRows totalColumns].
  split.
  - induction (data df) as [|r rows IH]; [simpl; lia|].
    rewrite fmap_cons, sum_list_cons. cbn [length].
    pose proof (missing_in_bound r). lia.
  - induction (data df) as [|r rows IH].
    + simpl. split; [constructor | done].
    + rewrite fmap_cons, sum_list_cons, Forall_cons, <- IH, <- missing_in_zero.
      lia.
Qed.

End StatsExtras.

(** ** Unique values *)

Section UniqueExtras.

Import JS DataProcessor.

Lemma num_eqb_refl (x : num) : Num.isNaN x = false -> Num.eqb x x = true.
Proof.
  intros Hx. pose proof (NumFacts.le_refl x Hx) as H.
  unfold Num.le, Num.leb in H. unfold Num.eqb.
  pose proof (NumFacts.cmp_antisym x x) as Ha.
  destruct (Num.cmp x x) as [[]|]; simpl in *; try done.
Qed.

(** In the model SameValueZero is equality of values. *)
Lemma same_value_zero_eq (a b : scalar) :
  same_value_zero a b = true <-> a = b.
Proof.
  destruct a as [| |x|x|x], b as [| |y|y|y]; simpl; try done.
  - rewrite Bool.eqb_true_iff. split; congruence.
  - split.
    + intros [[Hx Hy]%andb_true_iff|He]%orb_true_iff.
      * destruct x, y; done.
      * unfold Num.eqb in He.
        destruct (Num.cmp x y) as [[]|] eqn:E; try done.
        by apply NumFacts.cmp_Eq in E as ->.
    + intros [= ->]. destruct (Num.isNaN y) eqn:E; [done|].
      by rewrite num_eqb_refl.
  - rewrite String.eqb_eq. split; congruence.
Qed.

Lemma existsb_same_value_zero (v : scalar) (s : list scalar) :
  existsb (same_value_zero v) s = true <-> v ∈ s.
Proof.
  rewrite existsb_exists. split.
  - intros (x & Hx & ->%same_value_zero_eq). by apply list_elem_of_In.
  - intros Hv. exists v. split; [by apply list_elem_of_In|].
    by apply same_value_zero_eq.
Qed.

Lemma Set_add_spec (s : list scalar) (v : scalar) :
  NoDup s ->
  NoDup (Set_add s v) /\ forall x, x ∈ Set_add s v <-> x ∈ s \/ x = v.
Proof.
  intros Hs. unfold Set_add.
  destruct (existsb (same_value_zero v) s) eqn:E.
  - apply existsb_same_value_zero in E. split; [done|].
    intros x. split; [auto | intros [?| ->]; done].
  - assert (v ∉ s) as Hv.
    { intros Hin%existsb_same_value_zero. congruence. }
    split.
    + apply NoDup_app. split; [done|]. split; [|apply NoDup_singleton].
      intros x Hx ->%list_elem_of_singleton. done.
    + intros x. by rewrite elem_of_app, list_elem_of_singleton.
Qed.

Lemma Set_from_spec (values : list scalar) :
  NoDup (Set_from values) /\ forall x, x ∈ Set_from values <-> x ∈ values.
Proof.
  unfold Set_from.
  assert (forall s, NoDup s ->
            NoDup (foldl Set_add s values)
            /\ forall x, x ∈ foldl Set_add s values <-> x ∈ s \/ x ∈ values)
    as H.
  { induction values as [|v values IH]; intros s Hs; simpl.
    - split; [done|]. intros x. rewrite elem_of_nil. tauto.
    - destruct (Set_add_spec s v Hs) as [Hnd Hin].
      destruct (IH _ Hnd) as [Hnd' Hin']. split; [done|].
      intros x. rewrite Hin', Hin, elem_of_cons. tauto. }
  destruct (H [] (NoDup_nil_2)) as [Hnd Hin]. split; [done|].
  intros x. rewrite Hin, elem_of_nil. tauto.
Qed.

(** X3: [getUniqueValues(f)] lists without repetition exactly the values
    that some row holds at [f] and that are not missing. *)
Theorem getUniqueValues_spec (df : DataFile) (fieldName : string) :
  NoDup (getUniqueValues df fieldName)
  /\ forall v : scalar,
       v ∈ getUniqueValues df fieldName
       <-> (exists r : row, r ∈ data df /\ get r fieldName = v)
           /\ is_missing v = false.
Proof.
  unfold getUniqueValues.
  destruct (Set_from_spec (map (fun r => get r fieldName) (data df)))
    as [Hnd Hin].
  split; [by apply NoDup_ListNoDup, List.NoDup_filter, NoDup_ListNoDup|].
  intros v. rewrite list_elem_of_In, filter_In, <- list_elem_of_In, Hin.
  change (map (fun r => get r fieldName) (data df))
    with ((fun r => get r fieldName) <$> data df).
  rewrite list_elem_of_fmap.
  assert (negb (strict_eq v VNull) && negb (strict_eq v VUndefined)
          && negb (strict_eq v (VStr "")) = negb (is_missing v)) as ->.
  { unfold is_missing.
    by destruct (strict_eq v VNull), (strict_eq v VUndefined),
      (strict_eq v (VStr "")). }
  rewrite negb_true_iff. split.
  - intros [(r & -> & Hr) Hm]. split; [by exists r | done].
  - intros [(r & Hr & <-) Hm]. split; [by exists r | done].
Qed.

End UniqueExtras.

(** ** Groups and aggregates *)

Section GroupExtras.

Import JS DataProcessor.

Variable df : DataFile.

(** The number of rows filed in a map of groups. *)
Definition filed (groups : gmap string (list row)) : nat :=
  sum_list (length <$> (map_to_list groups).*2).

Lemma filed_insert (groups : gmap string (list row)) (k : string)
    (g : list row) :
  groups !! k = None -> filed (<[k := g]> groups) = length g + filed groups.
Proof.
  intros Hk. unfold filed. by rewrite (map_to_list_insert groups k g Hk).
Qed.

Lemma filed_replace (groups : gmap string (list row)) (k : string)
    (g g' : list row) :
  groups !! k = Some g ->
  filed (<[k := g']> groups) + length g = length g' + filed groups.
Proof.
  intros Hk. rewrite <- (insert_delete_eq groups k g').
  rewrite filed_insert by apply lookup_delete_eq.
  unfold filed at 2. rewrite <- (map_to_list_delete groups k g Hk).
  rewrite !fmap_cons, sum_list_cons. unfold filed. simpl. lia.
Qed.

Lemma filed_grouping (fieldName : string) (rows : list row) :
  filed (grouping fieldName rows) = length rows.
Proof.
  induction rows as [|r rows IH] using rev_ind.
  - unfold grouping, filed. cbn [foldl]. by rewrite map_to_list_empty.
  - rewrite grouping_snoc, length_app. cbv zeta. cbn [length].
    destruct (grouping fieldName rows !! group_key fieldName r) as [g|] eqn:E.
    + pose proof (filed_replace _ _ g (g ++ [r]) E) as Hf.
      rewrite length_app in Hf. cbn [length] in Hf. lia.
    + rewrite filed_insert by done. cbn [length]. lia.
Qed.

Lemma filed_at_least (groups : gmap string (list row)) :
  map_Forall (fun _ g => g <> []) groups -> size groups <= filed groups.
Proof.
  intros Hne. rewrite <- length_map_to_list. unfold filed.
  apply map_Forall_to_list in Hne.
  induction Hne as [|[k g] l Hg _ IH]; [done|].
  rewrite !fmap_cons, sum_list_cons. cbn [length snd].
  destruct g; [done|]. cbn [length]. lia.
Qed.

(** X4: [groupBy] throws exactly when the group key of some row names a
    member that plain objects inherit; otherwise a key has a group exactly
    when some row is filed under it, and the group is never empty and
    lists the rows of that key in the order of the data. *)
Theorem groupBy_groups (fieldName k : string) (g : list row) :
  (groupBy df fieldName = None
   <-> exists r, r ∈ data df /\ inherited (group_key fieldName r) = true)
  /\ ((exists groups, groupBy df fieldName = Some groups
                      /\ groups !! k = Some g)
      <-> Forall (fun r => inherited (group_key fieldName r) = false)
                 (data df)
          /\ g <> []
          /\ g = List.filter (fun r => String.eqb (group_key fieldName r) k)
                             (data df)).
Proof.
  split; [apply groupBy_None|].
  fold (members fieldName k (data df)). split.
  - intros (groups & Hgroups & Hg).
    rewrite (groupBy_lookup _ _ _ _ Hgroups) in Hg.
    apply groupBy_Some in Hgroups as [Hkeys _]. split; [done|].
    destruct (members fieldName k (data df)); [done|].
    by injection Hg as <-.
  - intros (Hkeys & Hne & ->). exists (grouping fieldName (data df)).
    split; [by apply groupBy_Some|]. rewrite grouping_lookup.
    by destruct (members fieldName k (data df)).
Qed.

(** X5: when [groupBy] returns, the sizes of the groups add up to the
    number of rows, so that there are at most as many groups as rows, and
    the count aggregate gives every key the size of its group. *)
Theorem group_sizes_total (groupField valueField : string)
    (groups : gmap string (list row)) :
  groupBy df groupField = Some groups ->
  sum_list (length <$> (map_to_list groups).*2) = length (data df)
  /\ size groups <= length (data df)
  /\ aggregate df groupField valueField Count
     = Some ((fun g => Num.of_nat (length g)) <$> groups).
Proof.
  intros Hgroups. rewrite aggregate_fmap, Hgroups.
  apply groupBy_Some in Hgroups as [_ ->].
  pose proof (filed_grouping groupField (data df)) as Hfiled.
  split; [exact Hfiled|]. split; [|done].
  rewrite <- Hfiled. apply filed_at_least.
  intros k g Hg. rewrite grouping_lookup in Hg.
  destruct (members groupField k (data df)); [done|]. by injection Hg as <-.
Qed.

(** X6: whatever the operation, [aggregate] throws exactly when the group
    key of some row names an inherited member, and otherwise its result
    has a key exactly for the group keys of the rows. *)
Theorem aggregate_keys (groupField valueField : string)
    (operation : Operation) (k : string) :
  (aggregate df groupField valueField operation = None
   <-> exists r, r ∈ data df /\ inherited (group_key groupField r) = true)
  /\ ((exists result, aggregate df groupField valueField operation
                      = Some result /\ is_Some (result !! k))
      <-> Forall (fun r => inherited (group_key groupField r) = false)
                 (data df)
          /\ exists r : row, r ∈ data df /\ group_key groupField r = k).
Proof.
  rewrite aggregate_fmap. split.
  - rewrite <- groupBy_None. by destruct (groupBy df groupField).
  - assert (is_Some (grouping groupField (data df) !! k)
            <-> exists r : row, r ∈ data df /\ group_key groupField r = k)
      as Hkey.
    { rewrite grouping_lookup. split.
      - destruct (members groupField k (data df)) as [|r l] eqn:E.
        + by intros [? ?].
        + intros _. exists r.
          assert (r ∈ members groupField k (data df)) as Hin
            by (rewrite E; left).
          apply list_elem_of_In, filter_In in Hin as [Hin Hk].
          split; [by apply list_elem_of_In | by apply String.eqb_eq].
      - intros (r & Hr & Hk).
        assert (r ∈ members groupField k (data df)) as Hin.
        { apply list_elem_of_In, filter_In.
          split; [by apply list_elem_of_In|]. by apply String.eqb_eq. }
        destruct (members groupField k (data df));
          [by apply elem_of_nil in Hin | done]. }
    rewrite <- Hkey. split.
    + intros (result & Hresult & Hk).
      destruct (groupBy df groupField) as [groups|] eqn:Hgroups; [|done].
      apply groupBy_Some in Hgroups as [Hkeys ->]. split; [done|].
      injection Hresult as <-. by rewrite lookup_fmap, fmap_is_Some in Hk.
    + intros [Hkeys Hk]. eexists.
      rewrite (proj2 (groupBy_Some _ groupField _) (conj Hkeys eq_refl)).
      split; [done|]. by rewrite lookup_fmap, fmap_is_Some.
Qed.

End GroupExtras.

(** ** The least and the greatest cell of a group *)

Section MinMaxExtras.

Import JS DataProcessor.

Lemma ltb_gtb (a b : num) : Num.ltb a b = Num.gtb b a.
Proof.
  unfold Num.ltb, Num.gtb. rewrite (NumFacts.cmp_antisym a b).
  by destruct (Num.cmp a b) as [[]|].
Qed.

Lemma parsable_cells_no_NaN (valueField : string) (g : list row) :
  no_NaN (parsable_cells valueField g).
Proof.
  apply List.Forall_forall. intros v [_ Hv]%filter_In.
  by apply negb_true_iff.
Qed.

(** The running minimum of [Math.min] stays below its start and below
    every element, and is one of them. *)
Lemma min_fold (l : list num) (acc : num) :
  Num.isNaN acc = false -> no_NaN l ->
  let m := foldl (fun acc x => if Num.isNaN x || Num.isNaN acc then NaN
                               else if Num.ltb x acc then x else acc) acc l in
  Num.isNaN m = false /\ Num.le m acc
  /\ (forall v, v ∈ l -> Num.le m v) /\ (m = acc \/ m ∈ l).
Proof.
  revert acc. induction l as [|x l IH]; intros acc Hacc Hl; cbn [foldl].
  - split; [done|]. split; [by apply NumFacts.le_refl|].
    split; [by intros v ?%elem_of_nil | by left].
  - apply Forall_cons in Hl as [Hx Hl]. rewrite Hx, Hacc. cbn [orb].
    destruct (Num.ltb x acc) eqn:E.
    + destruct (IH x Hx Hl) as (Hm & Hle & Hall & Hin).
      rewrite ltb_gtb in E. apply NumFacts.gtb_le in E.
      split; [done|]. split; [by etrans|]. split.
      * intros v [->|Hv]%elem_of_cons; [done | by apply Hall].
      * right. destruct Hin as [->|Hin]; [left | by right].
    + destruct (IH acc Hacc Hl) as (Hm & Hle & Hall & Hin).
      rewrite ltb_gtb in E. apply NumFacts.not_gtb_le in E; [|done..].
      split; [done|]. split; [done|]. split.
      * intros v [->|Hv]%elem_of_cons; [by etrans | by apply Hall].
      * destruct Hin as [->|Hin]; [by left | right; by right].
Qed.

Lemma max_fold (l : list num) (acc : num) :
  Num.isNaN acc = false -> no_NaN l ->
  let m := foldl (fun acc x => if Num.isNaN x || Num.isNaN acc then NaN
                               else if Num.gtb x acc then x else acc) acc l in
  Num.isNaN m = false /\ Num.le acc m
  /\ (forall v, v ∈ l -> Num.le v m) /\ (m = acc \/ m ∈ l).
Proof.
  revert acc. induction l as [|x l IH]; intros acc Hacc Hl; cbn [foldl].
  - split; [done|]. split; [by apply NumFacts.le_refl|].
    split; [by intros v ?%elem_of_nil | by left].
  - apply Forall_cons in Hl as [Hx Hl]. rewrite Hx, Hacc. cbn [orb].
    destruct (Num.gtb x acc) eqn:E.
    + destruct (IH x Hx Hl) as (Hm & Hle & Hall & Hin).
      apply NumFacts.gtb_le in E.
      split; [done|]. split; [by etrans|]. split.
      * intros v [->|Hv]%elem_of_cons; [done | by apply Hall].
      * right. destruct Hin as [->|Hin]; [left | by right].
    + destruct (IH acc Hacc Hl) as (Hm & Hle & Hall & Hin).
      apply NumFacts.not_gtb_le in E; [|done..].
      split; [done|]. split; [done|]. split.
      * intros v [->|Hv]%elem_of_cons; [by etrans | by apply Hall].
      * destruct Hin as [->|Hin]; [by left | right; by right].
Qed.

Lemma Math_min_least (l : list num) :
  no_NaN l -> l <> [] -> least (Math_min l) l.
Proof.
  intros Hl Hne. unfold Math_min.
  destruct (min_fold l PInf eq_refl Hl) as (_ & _ & Hall & Hin).
  split; [|done]. destruct Hin as [Hm|Hin]; [|done].
  destruct l as [|x l]; [done|].
  pose proof (Hall x ltac:(left)) as Hx. rewrite Hm in Hx |- *.
  destruct x; try done. left.
Qed.

Lemma Math_max_greatest (l : list num) :
  no_NaN l -> l <> [] -> greatest (Math_max l) l.
Proof.
  intros Hl Hne. unfold Math_max.
  destruct (max_fold l NInf eq_refl Hl) as (_ & _ & Hall & Hin).
  split; [|done]. destruct Hin as [Hm|Hin]; [|done].
  destruct l as [|x l]; [done|].
  pose proof (Hall x ltac:(left)) as Hx. rewrite Hm in Hx |- *.
  destruct x; try done. left.
Qed.

(** X7: when [groupBy] returns, the min and the max aggregate return too,
    and for the group of a key they hold a least and a greatest of the
    cells of the value field that parse as numbers, and both hold 0 when
    no cell of the group parses. *)
Theorem aggregate_min_max (df : DataFile) (groupField valueField k : string)
    (groups : gmap string (list row)) (g : list row) :
  groupBy df groupField = Some groups ->
  groups !! k = Some g ->
  exists mins maxs : gmap string num,
    aggregate df groupField valueField Min = Some mins
    /\ aggregate df groupField valueField Max = Some maxs
    /\ (parsable_cells valueField g = [] ->
          mins !! k = Some Num.zero /\ maxs !! k = Some Num.zero)
    /\ (parsable_cells valueField g <> [] ->
          exists lo hi : num,
            mins !! k = Some lo
            /\ least lo (parsable_cells valueField g)
            /\ maxs !! k = Some hi
            /\ greatest hi (parsable_cells valueField g)).
Proof.
  intros Hgroups Hg. rewrite !aggregate_fmap, Hgroups.
  eexists _, _. split; [done|]. split; [done|].
  rewrite !lookup_fmap, Hg. cbn [fmap option_fmap option_map].
  unfold aggregate_group. fold (parsable_cells valueField g).
  pose proof (parsable_cells_no_NaN valueField g) as Hnan.
  split.
  - by intros ->.
  - intros Hne. destruct (parsable_cells valueField g) as [|x l] eqn:E; [done|].
    cbn [length Nat.ltb Nat.leb].
    exists (Math_min (x :: l)), (Math_max (x :: l)).
    split; [done|]. split; [by apply Math_min_least|].
    split; [done|]. by apply Math_max_greatest.
Qed.

Lemma aggregate_min_max_witness :
  exists mins maxs : gmap string num,
    aggregate scenario_avg "a" "n" Min = Some mins
    /\ aggregate scenario_avg "a" "n" Max = Some maxs
    /\ exists lo hi : num,
         mins !! "g" = Some lo
         /\ least lo (parsable_cells "n" (data scenario_avg))
         /\ maxs !! "g" = Some hi
         /\ greatest hi (parsable_cells "n" (data scenario_avg)).
Proof.
  destruct (aggregate_min_max scenario_avg "a" "n" "g"
              {[ "g" := data scenario_avg ]} (data scenario_avg))
    as (mins & maxs & Hmin & Hmax & _ & H).
  - by vm_compute.
  - by vm_compute.
  - exists mins, maxs. split; [done|]. split; [done|].
    apply H. by vm_compute.
Defined.

Lemma group_sizes_total_witness :
  aggregate scenario_avg "a" "n" Count
  = Some ((fun g => Num.of_nat (length g))
            <$> ({[ "g" := data scenario_avg ]} : gmap string (list row))).
Proof.
  apply (group_sizes_total scenario_avg "a" "n"). by vm_compute.
Defined.

End MinMaxExtras.

(** ** Filtering *)

Section FilterExtras.

Import JS DataProcessor.

Variable df : DataFile.

Lemma filter_weaken {A : Type} (p q : A -> bool) (l : list A) :
  (forall x, p x = true -> q x = true) ->
  List.filter p l `sublist_of` List.filter q l.
Proof.
  intros Hpq. induction l as [|x l IH]; simpl; [done|].
  destruct (p x) eqn:Ep.
  - rewrite (Hpq x Ep). by constructor.
  - destruct (q x); [by constructor | done].
Qed.

Lemma filter_all {A : Type} (l : list A) : List.filter (fun _ => true) l = l.
Proof. induction l as [|x l IH]; simpl; [done | by rewrite IH]. Qed.

(** X8: filtering by two lists of conditions at once is filtering the
    result of the first list by the second, the order of the conditions
    does not matter, no condition keeps every row, and the rows kept are
    rows of the data in their order. *)
Theorem filter_composes (c1 c2 : list FilterCondition) :
  filter df (c1 ++ c2)
  = filter {| data := filter df c1; fields := fields df |} c2
  /\ filter df (c1 ++ c2) = filter df (c2 ++ c1)
  /\ filter df [] = data df
  /\ filter df c1 `sublist_of` data df.
Proof.
  split; [apply filter_app|]. split; [|split].
  - unfold filter. apply List.filter_ext. intros r.
    rewrite !forallb_app. apply andb_comm.
  - unfold filter. simpl. apply filter_all.
  - unfold filter. rewrite <- (filter_all (data df)) at 2.
    by apply filter_weaken.
Qed.

Lemma missing_unparsable (v : scalar) :
  is_missing v = true -> Num.isNaN (parseFloat v) = true.
Proof.
  destruct v as [| |b|n|s]; try done.
  rewrite is_missing_VStr. by intros ->%String.eqb_eq.
Qed.

(** X9: a greater, less or between condition rejects a row whose cell
    does not parse as a number, as every missing cell does not, and
    rejects every row when its bound does not parse. *)
Theorem numeric_condition_needs_numbers (r : row) (c : FilterCondition) :
  operator c ∈ [Greater; Less; Between] ->
  (is_missing (get r (fc_field c)) = true
   \/ Num.isNaN (parseFloat (get r (fc_field c))) = true
   \/ Num.isNaN (parseFloat (fc_value c)) = true) ->
  satisfies r c = false.
Proof.
  intros Hop Hnan.
  assert (Num.isNaN (parseFloat (get r (fc_field c))) = true
          \/ Num.isNaN (parseFloat (fc_value c)) = true) as H.
  { destruct Hnan as [Hm|[?|?]]; auto. left. by apply missing_unparsable. }
  clear Hnan. unfold satisfies.
  rewrite !elem_of_cons, elem_of_nil in Hop.
  destruct Hop as [->|[->|[->|[]]]];
    unfold Num.gtb, Num.ltb, Num.geb, Num.leb;
    destruct H as [H|H];
    destruct (parseFloat (get r (fc_field c))), (parseFloat (fc_value c));
    try done.
Qed.

Lemma numeric_condition_needs_numbers_witness :
  satisfies (∅ : row)
            {| fc_field := "v"; operator := Greater;
               fc_value := VStr "1"; fc_value2 := VUndefined |} = false.
Proof.
  apply numeric_condition_needs_numbers.
  - by left.
  - left. reflexivity.
Defined.

End FilterExtras.

(** ** Sorting by a number field *)

Section SortedOutput.

Import JS.

Context {A : Type} (comparefn : A -> A -> num).
Context (R : A -> A -> Prop) (P : A -> Prop).

Hypothesis before : forall a b, P a -> P b -> follows comparefn a b = false -> R a b.
Hypothesis after : forall a b, P a -> P b -> follows comparefn a b = true -> R b a.

Lemma place_HdRel (x y : A) (l : list A) :
  P x -> P y -> Forall P l ->
  follows comparefn x y = true -> HdRel R y l -> HdRel R y (place comparefn x l).
Proof.
  intros Hx Hy Hl Hxy Hhd. destruct l as [|z l]; simpl.
  - constructor. by apply after.
  - destruct (follows comparefn x z).
    + constructor. by inversion Hhd.
    + constructor. by apply after.
Qed.

Lemma place_Sorted (x : A) (l : list A) :
  P x -> Forall P l -> Sorted R l -> Sorted R (place comparefn x l).
Proof.
  intros Hx. induction l as [|y l IH]; intros Hl Hs; simpl.
  - by repeat constructor.
  - apply Forall_cons in Hl as [Hy Hl]. inversion Hs as [|? ? Hs' Hhd]; subst.
    destruct (follows comparefn x y) eqn:E.
    + constructor; [by apply IH | by apply place_HdRel].
    + constructor; [done|]. constructor. by apply before.
Qed.

Lemma stable_sort_Sorted (l : list A) :
  Forall P l -> Sorted R (stable_sort comparefn l).
Proof.
  induction l as [|x l IH]; intros Hl; simpl; [constructor|].
  apply Forall_cons in Hl as [Hx Hl].
  apply place_Sorted; [done| |by apply IH].
  by rewrite (sort_Permutation comparefn l).
Qed.

End SortedOutput.

Section SortExtras.

Import JS DataProcessor.

Variable localeCompare : string -> string -> num.
Variable Date_time : scalar -> option Z.
Variable arrangement : forall A : Type, (A -> A -> num) -> list A -> list nat.
Variable df : DataFile.

Local Abbreviation compare_rows :=
  (DataProcessor.compare_rows localeCompare Date_time df).
Local Abbreviation sort :=
  (DataProcessor.sort localeCompare Date_time arrangement df).

Lemma neg_sub (a b : num) : Num.neg (Num.sub a b) = Num.sub b a.
Proof.
  destruct a, b; simpl; try done. unfold Num.sub. simpl. f_equal. ring.
Qed.

(** The number a row is sorted by under a field of type number or date. *)
Definition sort_key (t : FieldType) (fieldName : string) (r : row) : num :=
  match t with
  | TDate => getTime Date_time (get r fieldName)
  | _ => parseFloat (get r fieldName)
  end.

(** With one condition on a number or date field, a row has to follow
    another exactly when its key is greater (ascending) or less
    (descending). *)
Lemma follows_key (t : FieldType) (fieldName : string) (dir : Direction)
    (a b : row) :
  t <> TString ->
  type <$> find_field (fields df) fieldName = Some t ->
  follows (compare_rows [ {| sc_field := fieldName; direction := dir |} ]) a b
  = match dir with
    | Asc => Num.gtb (sort_key t fieldName a) (sort_key t fieldName b)
    | Desc => Num.gtb (sort_key t fieldName b) (sort_key t fieldName a)
    end.
Proof.
  intros Hstr Hty. unfold follows. cbn [DataProcessor.compare_rows].
  unfold comparison_of. cbn [sc_field direction]. rewrite Hty.
  assert (forall x y : num,
            Num.gtb (if negb (Num.eqb (Num.sub x y) Num.zero)
                     then match dir with
                          | Asc => Num.sub x y
                          | Desc => Num.neg (Num.sub x y)
                          end
                     else Num.zero) Num.zero
            = match dir with Asc => Num.gtb x y | Desc => Num.gtb y x end)
    as H.
  { intros x y. set (d := Num.sub x y).
    destruct (Num.eqb d Num.zero) eqn:E; cbn [negb].
    - assert (d = Num.zero) as Hd.
      { unfold Num.eqb in E. destruct (Num.cmp d Num.zero) as [[]|] eqn:Ec;
          try done. by apply NumFacts.cmp_Eq. }
      destruct dir.
      + rewrite <- Hd at 1. apply NumFacts.gtb_sub.
      + rewrite <- (NumFacts.gtb_sub y x), <- neg_sub. fold d. by rewrite Hd.
    - destruct dir.
      + apply NumFacts.gtb_sub.
      + unfold d. rewrite neg_sub. apply NumFacts.gtb_sub. }
  destruct t; [done| |]; apply H.
Qed.

(** The sign the sort reads from the comparator is the comparison of the
    keys, in the direction of the condition. *)
Lemma order_key (t : FieldType) (fieldName : string) (dir : Direction)
    (a b : row) :
  t <> TString ->
  type <$> find_field (fields df) fieldName = Some t ->
  Num.isNaN (sort_key t fieldName a) = false ->
  Num.isNaN (sort_key t fieldName b) = false ->
  match dir with
  | Asc => Num.cmp (sort_key t fieldName a) (sort_key t fieldName b)
  | Desc => Num.cmp (sort_key t fieldName b) (sort_key t fieldName a)
  end
  = Some (order (compare_rows [ {| sc_field := fieldName; direction := dir |} ])
                a b).
Proof.
  intros Hstr Hty. unfold order. cbn [DataProcessor.compare_rows].
  unfold comparison_of. cbn [sc_field direction]. rewrite Hty.
  assert (forall x y : num,
            Num.isNaN x = false -> Num.isNaN y = false ->
            match dir with Asc => Num.cmp x y | Desc => Num.cmp y x end
            = Some (sign (if negb (Num.eqb (Num.sub x y) Num.zero)
                          then match dir with
                               | Asc => Num.sub x y
                               | Desc => Num.neg (Num.sub x y)
                               end
                          else Num.zero)))
    as H.
  { intros x y Hx Hy.
    assert (match dir with Asc => Num.cmp x y | Desc => Num.cmp y x end
            = Some (sign (match dir with
                          | Asc => Num.sub x y
                          | Desc => Num.neg (Num.sub x y)
                          end))) as ->.
    { destruct dir; rewrite ?neg_sub; by apply OrderFacts.sign_sub. }
    destruct (Num.eqb (Num.sub x y) Num.zero) eqn:E; cbn [negb]; [|done].
    assert (Num.sub x y = Num.zero) as ->.
    { unfold Num.eqb in E.
      destruct (Num.cmp (Num.sub x y) Num.zero) as [[]|] eqn:Ec;
        try done. by apply NumFacts.cmp_Eq. }
    by destruct dir. }
  destruct t; [done| |]; apply H.
Qed.

Lemma consistent_key (rows : list row) (t : FieldType) (fieldName : string)
    (dir : Direction) :
  t <> TString ->
  type <$> find_field (fields df) fieldName = Some t ->
  Forall (fun r => Num.isNaN (sort_key t fieldName r) = false) rows ->
  consistent_on (compare_rows [ {| sc_field := fieldName; direction := dir |} ])
                rows = true.
Proof.
  intros Hstr Hty Hrows.
  assert (forall a, a ∈ rows -> Num.isNaN (sort_key t fieldName a) = false)
    as Hkey by (by apply Forall_forall).
  destruct dir.
  - apply (consistent_by_key _ (sort_key t fieldName)). intros a b Ha Hb.
    apply (order_key t fieldName Asc); auto.
  - apply (consistent_by_key_desc _ (sort_key t fieldName)). intros a b Ha Hb.
    apply (order_key t fieldName Desc); auto.
Qed.

(** The order of the keys in the direction of a condition. *)
Definition in_order (t : FieldType) (fieldName : string) (dir : Direction)
    (a b : row) : Prop :=
  match dir with
  | Asc => Num.le (sort_key t fieldName a) (sort_key t fieldName b)
  | Desc => Num.le (sort_key t fieldName b) (sort_key t fieldName a)
  end.

(** X10: sorting by one condition on a field declared as a number or as a
    date, when the cell of every row parses as a number or is a valid date,
    returns the same rows with their parsed cells or time values ascending
    (for asc) or descending (for desc). *)
Theorem sort_by_key (rows : list row) (t : FieldType) (fieldName : string)
    (dir : Direction) :
  t <> TString ->
  type <$> find_field (fields df) fieldName = Some t ->
  Forall (fun r => Num.isNaN (sort_key t fieldName r) = false) rows ->
  let sorted := sort rows [ {| sc_field := fieldName; direction := dir |} ] in
  sorted ≡ₚ rows /\ Sorted (in_order t fieldName dir) sorted.
Proof.
  intros Hstr Hty Hrows. split; [apply Array_sort_Permutation|].
  unfold DataProcessor.sort.
  rewrite Array_sort_consistent by (by apply (consistent_key rows t)).
  apply (stable_sort_Sorted _ _
           (fun r => Num.isNaN (sort_key t fieldName r) = false));
    [| |done].
  - intros a b Ha Hb. rewrite (follows_key t) by done. unfold in_order.
    destruct dir; intros H; by apply NumFacts.not_gtb_le.
  - intros a b Ha Hb. rewrite (follows_key t) by done. unfold in_order.
    destruct dir; intros H; by apply NumFacts.gtb_le.
Qed.

(** Without conditions [sort] returns the rows as they are. *)
Lemma sort_no_condition (rows : list row) : sort rows [] = rows.
Proof.
  unfold DataProcessor.sort.
  rewrite Array_sort_consistent by (by apply consistent_tied).
  induction rows as [|r rows IH]; cbn [stable_sort]; [done|]. rewrite IH.
  by destruct rows.
Qed.

End SortExtras.

Section SortExtrasInstance.

Import JS DataProcessor.

Lemma sort_by_key_witness :
  Sorted (in_order RefHost.Date_time TNumber "n" Asc)
         (sort RefHost.localeCompare RefHost.Date_time RefHost.arrangement
               scenario_sort
               (data scenario_sort) [ {| sc_field := "n"; direction := Asc |} ]).
Proof.
  apply (sort_by_key RefHost.localeCompare RefHost.Date_time
           RefHost.arrangement scenario_sort
           (data scenario_sort) TNumber "n" Asc).
  - done.
  - reflexivity.
  - repeat constructor.
Defined.

End SortExtrasInstance.

(** ** The processing panel *)

Section PanelExtras.

Import JS DataProcessor DataProcessingPanel.

Variable localeCompare : string -> string -> num.
Variable Date_time : scalar -> option Z.
Variable arrangement : forall A : Type, (A -> A -> num) -> list A -> list nat.
Variable dataFile : DataFile.

Local Abbreviation applyProcessing :=
  (DataProcessingPanel.applyProcessing localeCompare Date_time arrangement
                                       dataFile).

(** X11: the rows [applyProcessing] publishes are the rows that pass every
    filter, rearranged; without sort conditions they are the filtered rows
    in the order of the data, and without any condition the data itself,
    as [resetProcessing] publishes. *)
Theorem applyProcessing_rows (filters : list FilterCondition)
    (sorts : list SortCondition) :
  applyProcessing filters sorts ≡ₚ filter dataFile filters
  /\ (forall r : row,
        r ∈ applyProcessing filters sorts
        <-> r ∈ data dataFile
            /\ Forall (fun c => satisfies r c = true) filters)
  /\ applyProcessing filters [] = filter dataFile filters
  /\ applyProcessing [] [] = data dataFile.
Proof.
  unfold DataProcessingPanel.applyProcessing.
  assert (sort localeCompare Date_time arrangement dataFile
               (filter dataFile filters) sorts
          ≡ₚ filter dataFile filters) as Hperm by apply Array_sort_Permutation.
  split; [done|]. split; [|split].
  - intros r. rewrite Hperm. unfold filter.
    rewrite list_elem_of_In, filter_In, <- list_elem_of_In.
    rewrite forallb_forall, List.Forall_forall. done.
  - apply sort_no_condition.
  - rewrite sort_no_condition. unfold filter. simpl. apply filter_all.
Qed.

Lemma filter_index_past {A : Type} (l : list A) (i index : nat) :
  index < i -> filter_index l i index = l.
Proof.
  revert i. induction l as [|x l IH]; intros i Hi; cbn [filter_index]; [done|].
  destruct (Nat.eqb_spec i index); [lia|]. by rewrite IH by lia.
Qed.

Lemma filter_index_spec {A : Type} (l : list A) (i index : nat) :
  i <= index ->
  filter_index l i index = take (index - i) l ++ drop (S (index - i)) l.
Proof.
  revert i. induction l as [|x l IH]; intros i Hi; cbn [filter_index].
  - by rewrite take_nil, drop_nil.
  - destruct (Nat.eqb_spec i index) as [->|Hne].
    + rewrite Nat.sub_diag. cbn [take drop app].
      apply filter_index_past. lia.
    + rewrite IH by lia.
      replace (index - i) with (S (index - S i)) by lia. done.
Qed.

Lemma incl_filter (conditions conditions' : list FilterCondition) :
  conditions' ⊆ conditions ->
  filter dataFile conditions `sublist_of` filter dataFile conditions'.
Proof.
  intros Hsub. unfold filter. apply filter_weaken. intros r.
  rewrite !forallb_forall. intros H c Hc%list_elem_of_In.
  by apply H, list_elem_of_In, Hsub.
Qed.

(** X12: [removeFilter(i)] and [removeSort(i)] drop the condition at
    position [i] and keep the others in order; nothing is dropped when [i]
    is past the end; and the rows that passed the filters before still
    pass, in the same order. *)
Theorem removeFilter_spec (filters : list FilterCondition)
    (sorts : list SortCondition) (index : nat) :
  removeFilter filters index = take index filters ++ drop (S index) filters
  /\ removeSort sorts index = take index sorts ++ drop (S index) sorts
  /\ removeFilter filters (length filters + index) = filters
  /\ filter dataFile filters
     `sublist_of` filter dataFile (removeFilter filters index).
Proof.
  assert (forall i, removeFilter filters i
                    = take i filters ++ drop (S i) filters) as Heq.
  { intros i. unfold removeFilter. rewrite filter_index_spec by lia.
    by rewrite Nat.sub_0_r. }
  split; [done|]. split; [|split].
  - unfold removeSort. rewrite filter_index_spec by lia.
    by rewrite Nat.sub_0_r.
  - rewrite Heq, take_ge, drop_ge by lia. apply app_nil_r.
  - apply incl_filter. rewrite Heq. intros c [Hc|Hc]%elem_of_app.
    + by apply (subseteq_take index filters).
    + by apply (subseteq_drop (S index) filters).
Qed.

End PanelExtras.

(** ** Sampling *)

Section SampleExtras.

Import JS DataProcessor.

Variable shuffle : list row -> list row.
Variable df : DataFile.

Lemma slice_prefix {A : Type} (l : list A) (size : Z) :
  (0 <= size)%Z -> slice l 0 (Some size) = take (Z.to_nat size) l.
Proof.
  intros H. unfold slice, rel_index.
  rewrite (proj2 (Z.ltb_ge _ _)) by lia.
  change (0 <? 0)%Z with false. cbn iota.
  rewrite (Z.min_l 0) by lia. rewrite Z.sub_0_r.
  change (Z.to_nat 0) with 0. rewrite drop_0.
  destruct (Z.le_ge_cases size (Z.of_nat (length l))).
  - by rewrite Z.min_l.
  - rewrite Z.min_r, !take_ge by lia. done.
Qed.


(** X14: when the shuffle only rearranges the rows, a random sample of a
    size that is not negative has that many rows, or all of them when there
    are fewer, and takes each of them from the data, no row more often than
    the data holds it. *)
Theorem sample_random (size : Z) :
  (forall l, shuffle l ≡ₚ l) -> (0 <= size)%Z ->
  length (sample shuffle df size Random)
  = Nat.min (Z.to_nat size) (length (data df))
  /\ sample shuffle df size Random ⊆+ data df.
Proof.
  intros Hperm Hsize. unfold sample.
  destruct (Z.leb_spec (Z.of_nat (length (data df))) size) as [Hall|Hless].
  - split; [lia | done].
  - rewrite slice_prefix by done. split.
    + rewrite length_take, (Permutation_length (Hperm (data df))). lia.
    + rewrite <- (Hperm (data df)) at 2.
      apply sublist_submseteq, sublist_take.
Qed.

(** X15: a negative size is not rejected: by first, [sample] then returns
    the data without its last [-size] rows, and by last the data without
    its first [-size] rows. *)
Theorem sample_negative (size : Z) :
  (size < 0)%Z ->
  sample shuffle df size First
  = take (length (data df) - Z.to_nat (- size)) (data df)
  /\ sample shuffle df size Last = drop (Z.to_nat (- size)) (data df).
Proof.
  intros H. unfold sample, slice, rel_index.
  rewrite (proj2 (Z.leb_gt _ _)) by lia.
  rewrite (proj2 (Z.ltb_lt size 0)) by lia.
  rewrite (proj2 (Z.ltb_ge (- size) 0)) by lia.
  change (0 <? 0)%Z with false. cbn iota.
  rewrite (Z.min_l 0) by lia. rewrite Z.sub_0_r.
  change (Z.to_nat 0) with 0. rewrite drop_0. split.
  - f_equal. lia.
  - rewrite take_ge by (rewrite length_drop; lia).
    destruct (Z.le_ge_cases (- size) (Z.of_nat (length (data df)))).
    + by rewrite Z.min_l.
    + rewrite Z.min_r, !drop_ge by lia. done.
Qed.

End SampleExtras.

Section SampleExtrasInstances.

Import JS DataProcessor.


Lemma sample_random_witness :
  length (sample (@rev row) two_rows 1 Random) = 1.
Proof.
  apply (sample_random (@rev row) two_rows 1).
  - intros l. symmetry. apply Permutation_rev.
  - lia.
Defined.

Lemma sample_negative_witness :
  sample id two_rows (-1) First = take 1 (data two_rows).
Proof.
  apply (sample_negative id two_rows (-1)). lia.
Defined.

End SampleExtrasInstances.

(** ** Cleaned cells *)

Section CleanExtras.

Import JS DataProcessor.

Variable Date_time : scalar -> option Z.
Variable Date_toISOString : Z -> string.
Variable df : DataFile.

Local Abbreviation clean_cell :=
  (DataProcessor.clean_cell Date_time Date_toISOString).
Local Abbreviation clean := (DataProcessor.clean Date_time Date_toISOString).

(** The cells [clean] stores for a type: a number that is not [NaN], a
    string without white space at its ends, and for a date null or the
    date part of the ISO text of a valid date. *)
Definition canonical (t : FieldType) (v : scalar) : Prop :=
  match t with
  | TNumber => exists n, v = VNum n /\ Num.isNaN n = false
  | TString => exists s, v = VStr s /\ Str.trim s = s
  | TDate => v = VNull
             \/ exists time, v = VStr (iso_date Date_toISOString time)
  end.

Lemma clean_cell_canonical (t : FieldType) (v : scalar) :
  canonical t (clean_cell t v).
Proof.
  unfold DataProcessor.clean_cell, canonical.
  destruct (is_missing v), t.
  - by exists "".
  - by eexists.
  - by left.
  - eexists. split; [done | apply StrFacts.trim_tight].
  - destruct (Num.isNaN (parseFloat v)) eqn:E; by eexists.
  - destruct (Date_time v) as [time|]; [right; by exists time | by left].
Qed.

Lemma clean_row_canonical (r : row) (k : string) (t : FieldType) :
  last_type (fields df) k = Some t ->
  exists v, DataProcessor.clean_row Date_time Date_toISOString df r !! k
            = Some v /\ canonical t v.
Proof.
  intros Ht. rewrite clean_row_lookup, Ht. eexists. split; [done|].
  apply clean_cell_canonical.
Qed.



End CleanExtras.

Section CleanExtrasInstance.

Import JS DataProcessor.


End CleanExtrasInstance.

(** ** The lines of an exported table *)

Section ExportExtras.

Import JS DataProcessor Str CsvFacts.

Variable JSON_stringify : list row -> string.

Lemma has_char_app (c : ascii) (a b : string) :
  has_char c (a ++ b)%string = has_char c a || has_char c b.
Proof.
  induction a as [|d a IH]; [done|].
  rewrite app_cons. cbn [has_char]. by rewrite IH, orb_assoc.
Qed.

Lemma has_char_double (c d : ascii) (s : string) :
  has_char c (double_char d s) = has_char c s.
Proof.
  induction s as [|x s IH]; [done|]. cbn [double_char].
  destruct (Ascii.eqb_spec x d) as [->|_]; cbn [has_char]; rewrite IH.
  - by destruct (Ascii.eqb d c).
  - done.
Qed.

(** The text [join] writes for a cell. *)
Definition cell_text (v : scalar) : string :=
  match v with
  | VUndefined | VNull => ""
  | _ => ToString v
  end.

Lemma csv_cell_line_break (v : scalar) :
  has_char newline (ToString v) = false ->
  has_char newline (cell_text (csv_cell v)) = false.
Proof.
  destruct v as [| |b|n|s]; try done. cbn [csv_cell ToString].
  intros Hs. destruct (has_char comma s || has_char dquote s); [|done].
  cbn [cell_text ToString has_char].
  rewrite has_char_app, has_char_double, Hs. done.
Qed.

(** Neither a key nor the text of a cell holds a line break. *)
Definition no_line_break (rows : list row) : Prop :=
  Forall (map_Forall (fun (k : string) (v : scalar) =>
                        has_char newline k = false
                        /\ has_char newline (ToString v) = false))
         rows.

Lemma csv_line_no_break (headers : list string) (r : row) :
  map_Forall (fun (k : string) (v : scalar) =>
                has_char newline k = false
                /\ has_char newline (ToString v) = false) r ->
  has_char newline
    (join_values "," (map (fun header => csv_cell (get r header)) headers))
  = false.
Proof.
  intros Hr. unfold join_values. apply (has_char_join newline comma); [done|].
  apply List.Forall_forall. intros s (v & <- & (h & <- & _)%in_map_iff)%in_map_iff.
  fold (cell_text (csv_cell (get r h))). apply csv_cell_line_break.
  unfold get. destruct (r !! h) as [v|] eqn:E; [|done].
  by destruct (Hr h v E).
Qed.

(** X18: when no key and no cell text holds a line break, the csv export
    of a table that is not empty has one line for the keys of the first
    row and one line for each row; the export of no rows is the empty
    text. *)
Theorem export_csv_lines (first : row) (rest : list row) :
  no_line_break (first :: rest) ->
  let lines :=
    split newline (export JSON_stringify (first :: rest) CSV) in
  length lines = S (S (length rest))
  /\ head lines = Some (join "," (Object_keys first))
  /\ export JSON_stringify [] CSV = "".
Proof.
  intros Hrows. cbn [export].
  rewrite split_join.
  - cbn [length head map]. by rewrite length_map.
  - done.
  - constructor.
    + apply (has_char_join newline comma); [done|].
      apply Forall_forall. intros k [v Hv]%elem_of_Object_keys.
      apply Forall_cons in Hrows as [Hfirst _].
      by destruct (Hfirst k v Hv).
    + apply List.Forall_forall. intros s (r & <- & Hr)%in_map_iff.
      apply csv_line_no_break.
      by apply (proj1 (List.Forall_forall _ _) Hrows).
Qed.

End ExportExtras.

Section ExportExtrasInstance.

Import JS DataProcessor Str.

Lemma export_csv_lines_witness :
  length (split newline (export RefHost.JSON_stringify comma_rows CSV)) = 2.
Proof.
  apply (export_csv_lines RefHost.JSON_stringify {[ "x" := VStr "a,b" ]} []).
  constructor; [|constructor].
  intros k v [<- <-]%lookup_singleton_Some. by vm_compute.
Defined.

End ExportExtrasInstance.

(** ** The rows read from csv text *)

Section ParseExtras.

Import JS FileUpload Str CsvFacts.

Lemma split_nonempty (sep : ascii) (s : string) : split sep s <> [].
Proof.
  induction s as [|c s IH]; cbn [split]; [done|].
  destruct (Ascii.eqb c sep); [done|]. by destruct (split sep s).
Qed.

Lemma split_single (sep : ascii) (s : string) :
  length (split sep s) = 1 <-> has_char sep s = false.
Proof.
  induction s as [|c s IH]; cbn [split has_char]; [done|].
  pose proof (split_nonempty sep s) as Hne.
  destruct (Ascii.eqb c sep); cbn [orb].
  - destruct (split sep s); [done|]. cbn [length]. split; [lia | done].
  - rewrite <- IH. by destruct (split sep s).
Qed.

Lemma has_char_remove (c : ascii) (s : string) :
  has_char c (remove_char c s) = false.
Proof.
  induction s as [|d s IH]; cbn [remove_char]; [done|].
  destruct (Ascii.eqb d c) eqn:E; [done|]. cbn [has_char]. by rewrite E.
Qed.

(** A cell of a parsed row: a string without double quote. *)
Definition unquoted (v : scalar) : Prop :=
  exists s, v = VStr s /\ has_char dquote s = false.

Lemma unquoted_cell (values : list string) (index : nat) :
  unquoted (VStr (default "" (map clean_token values !! index))).
Proof.
  eexists. split; [done|].
  destruct (map clean_token values !! index) as [s|] eqn:E; [|done].
  apply list_elem_of_lookup_2, list_elem_of_In, in_map_iff in E
    as (t & <- & _).
  apply has_char_remove.
Qed.

Lemma fill_row_dom (headers : list string) (index : nat)
    (values : list string) (r : row) :
  dom (fill_row headers index values r) = dom r ∪ list_to_set headers.
Proof.
  revert index r. induction headers as [|h headers IH]; intros index r;
    cbn [fill_row].
  - set_solver.
  - rewrite IH, dom_insert_L. set_solver.
Qed.

Lemma fill_row_unquoted (headers : list string) (index : nat)
    (values : list string) (r : row) :
  map_Forall (fun _ => unquoted) r ->
  map_Forall (fun _ => unquoted)
             (fill_row headers index (map clean_token values) r).
Proof.
  revert index r. induction headers as [|h headers IH]; intros index r Hr;
    cbn [fill_row]; [done|].
  apply IH. apply map_Forall_insert_2; [apply unquoted_cell | done].
Qed.

Lemma fill_row_other (headers : list string) (index : nat)
    (values : list string) (r : row) (k : string) :
  k ∉ headers -> fill_row headers index values r !! k = r !! k.
Proof.
  revert index r. induction headers as [|h headers IH]; intros index r Hk;
    cbn [fill_row]; [done|].
  apply not_elem_of_cons in Hk as [Hne Hk].
  by rewrite IH, lookup_insert_ne.
Qed.

Lemma fill_row_lookup (headers : list string) (index : nat)
    (values : list string) (r : row) (j : nat) (h : string) :
  NoDup headers -> headers !! j = Some h ->
  fill_row headers index values r !! h
  = Some (VStr (default "" (values !! (index + j)))).
Proof.
  revert index r j. induction headers as [|h0 headers IH];
    intros index r j Hnd Hj; [done|].
  apply NoDup_cons in Hnd as [Hnotin Hnd]. cbn [fill_row].
  destruct j as [|j].
  - injection Hj as ->. rewrite fill_row_other by done.
    by rewrite lookup_insert_eq, Nat.add_0_r.
  - rewrite (IH (S index) _ j Hnd Hj). do 4 f_equal. lia.
Qed.

(** The header names [parseCSV] reads from the first line. *)
Definition headers_of (text : string) : list string :=
  map clean_token
      (split comma (default "" (head (split newline (trim text))))).

Lemma parseCSV_unfold (text : string) :
  parseCSV text
  = map (fun line =>
           fill_row (headers_of text) 0 (map clean_token (split comma line)) ∅)
        (tail (split newline (trim text))).
Proof.
  unfold parseCSV, headers_of.
  pose proof (split_nonempty newline (trim text)) as Hne.
  by destruct (split newline (trim text)).
Qed.

Lemma parseCSV_rows (text : string) :
  Forall (fun r : row =>
            dom r = list_to_set (headers_of text)
            /\ map_Forall (fun _ => unquoted) r)
         (parseCSV text).
Proof.
  rewrite parseCSV_unfold.
  apply List.Forall_forall. intros r (line & <- & _)%in_map_iff. split.
  - rewrite fill_row_dom. set_solver.
  - apply fill_row_unquoted. apply map_Forall_empty.
Qed.




End ParseExtras.

(** ** The fields of an uploaded file *)

Section FieldExtras.

Import JS FileUpload Str.

Variable Date_time : scalar -> option Z.
Variable JSON_parse : string -> option (list row).

Local Abbreviation infer_type := (FileUpload.infer_type Date_time).
Local Abbreviation analyzeFields := (FileUpload.analyzeFields Date_time).
Local Abbreviation processFile :=
  (FileUpload.processFile Date_time JSON_parse).

Lemma nonNullValues_take (rows : list row) (key : string) :
  nonNullValues (take 100 rows) key = nonNullValues rows key.
Proof. unfold nonNullValues. by rewrite take_take, Nat.min_id. Qed.

Lemma infer_type_take (rows : list row) (key : string) :
  infer_type (take 100 rows) key = infer_type rows key.
Proof.
  unfold FileUpload.infer_type, numericCount, dateCount.
  by rewrite nonNullValues_take.
Qed.

Lemma analyzeFields_names (rows : list row) :
  name <$> analyzeFields rows
  = match rows with [] => [] | first :: _ => Object_keys first end.
Proof.
  unfold FileUpload.analyzeFields. destruct rows as [|first rest]; [done|].
  rewrite <- list_fmap_compose. apply list_fmap_id.
Qed.

Lemma analyzeFields_NoDup (rows : list row) :
  NoDup (name <$> analyzeFields rows).
Proof.
  rewrite analyzeFields_names. destruct rows as [|first rest].
  - constructor.
  - apply NoDup_fst_map_to_list.
Qed.

(** X21: the field names [analyzeFields] returns differ from each other,
    and the rows after the first hundred have no part in the result. *)
Theorem analyzeFields_sample (rows : list row) :
  NoDup (name <$> analyzeFields rows)
  /\ analyzeFields (take 100 rows) = analyzeFields rows.
Proof.
  split; [apply analyzeFields_NoDup|].
  - destruct rows as [|first rest]; [done|].
    change (take 100 (first :: rest)) with (first :: take 99 rest).
    unfold FileUpload.analyzeFields. apply map_ext. intros key. f_equal.
    apply (infer_type_take (first :: rest)).
Qed.


End FieldExtras.

Section FieldExtrasInstance.

Import JS FileUpload Str.


End FieldExtrasInstance.

(** ** The contains condition *)

Section ContainsExtras.

Import JS DataProcessor Str.

Lemma lower_char_idemp (c : ascii) : lower_char (lower_char c) = lower_char c.
Proof. destruct c as [[] [] [] [] [] [] [] []]; by vm_compute. Qed.

Lemma toLowerCase_idemp (s : string) :
  toLowerCase (toLowerCase s) = toLowerCase s.
Proof.
  induction s as [|c s IH]; [done|]. cbn [toLowerCase].
  by rewrite lower_char_idemp, IH.
Qed.

(** A contains condition on field [f] for the text [needle]. *)
Definition contains (f needle : string) : FilterCondition :=
  {| fc_field := f; operator := Contains;
     fc_value := VStr needle; fc_value2 := VUndefined |}.

(** X23: a contains condition ignores the case of the letters, of the
    text searched for as of a text cell, and the empty text is contained
    in every cell, a missing one too. *)
Theorem contains_ignores_case (r : row) (f needle cell : string) :
  satisfies r (contains f (toLowerCase needle))
  = satisfies r (contains f needle)
  /\ satisfies (<[f := VStr (toLowerCase cell)]> r) (contains f needle)
     = satisfies (<[f := VStr cell]> r) (contains f needle)
  /\ satisfies r (contains f "") = true.
Proof.
  unfold satisfies, contains. cbn [operator fc_field fc_value ToString].
  split; [by rewrite toLowerCase_idemp|]. split.
  - unfold get. rewrite !lookup_insert_eq. simpl.
    by rewrite toLowerCase_idemp.
  - cbn [toLowerCase]. by destruct (toLowerCase _).
Qed.

End ContainsExtras.
